(** * auviz_vue: the audio visualiser component [src/components/Viz.vue]

    A shallow embedding of the script part of the component: the playback
    controller (seek, volume, mute), the animation scheduler (the 20 ms
    stepper and the redraw chain), the polar projection, the particle
    field with its recycling rule, the spectrum geometry and the palette
    adapter.

    JavaScript numbers are modelled as exact real numbers extended with
    the non-finite values [NaN] and [±Infinity]: rounding, overflow and
    the sign of zero are not modelled.  Values that the DOM types as
    finite ([currentTime], [volume], pointer offsets, element sizes) are
    plain reals. *)

From Stdlib Require Import Reals Lra Lia ZArith List Bool String.
From Stdlib Require Import DecimalString.
From Stdlib Require Import Permutation.
Import ListNotations.
Open Scope R_scope.

(** ** JavaScript numbers *)

Module JsNum.

Inductive jsnum : Type :=
| NaN
| Inf (negative : bool)
| Fin (r : R).

Definition Rltb (x y : R) : bool := if Rlt_dec x y then true else false.
Definition Reqb (x y : R) : bool := if Req_dec_T x y then true else false.

(** [a < b]: every comparison with [NaN] is false. *)
Definition lt (a b : jsnum) : bool :=
  match a, b with
  | NaN, _ | _, NaN => false
  | Inf false, _ => false
  | Inf true, Inf true => false
  | Inf true, _ => true
  | Fin _, Inf s => negb s
  | Fin x, Fin y => Rltb x y
  end.

(** [a > b] *)
Definition gt (a b : jsnum) : bool := lt b a.

Definition isNaN (a : jsnum) : bool :=
  match a with NaN => true | _ => false end.

Definition neg (a : jsnum) : jsnum :=
  match a with
  | NaN => NaN
  | Inf s => Inf (negb s)
  | Fin x => Fin (- x)
  end.

Definition add (a b : jsnum) : jsnum :=
  match a, b with
  | NaN, _ | _, NaN => NaN
  | Inf s, Inf t => if Bool.eqb s t then Inf s else NaN
  | Inf s, Fin _ | Fin _, Inf s => Inf s
  | Fin x, Fin y => Fin (x + y)
  end.

Definition sub (a b : jsnum) : jsnum := add a (neg b).

(** An infinity scaled by a finite factor: [NaN] at zero, otherwise an
    infinity whose sign follows the factor. *)
Definition scale_inf (s : bool) (x : R) : jsnum :=
  if Reqb x 0 then NaN else Inf (xorb s (Rltb x 0)).

Definition mul (a b : jsnum) : jsnum :=
  match a, b with
  | NaN, _ | _, NaN => NaN
  | Inf s, Inf t => Inf (xorb s t)
  | Inf s, Fin x | Fin x, Inf s => scale_inf s x
  | Fin x, Fin y => Fin (x * y)
  end.

Definition div (a b : jsnum) : jsnum :=
  match a, b with
  | NaN, _ | _, NaN => NaN
  | Inf _, Inf _ => NaN
  | Inf s, Fin y => Inf (xorb s (Rltb y 0))
  | Fin _, Inf _ => Fin 0
  | Fin x, Fin y =>
      if Reqb y 0 then scale_inf false x else Fin (x / y)
  end.

(** [Math.floor] *)
Definition floor (a : jsnum) : jsnum :=
  match a with
  | Fin x => Fin (IZR (Zfloor x))
  | _ => a
  end.

(** Rounding towards zero, as the remainder operator does. *)
Definition Ztrunc (x : R) : Z :=
  if Rltb x 0 then Zceil x else Zfloor x.

(** [a % b]: the remainder takes the sign of the dividend. *)
Definition rem (a b : jsnum) : jsnum :=
  match a, b with
  | Fin x, Fin y =>
      if Reqb y 0 then NaN else Fin (x - y * IZR (Ztrunc (x / y)))
  | Fin x, Inf _ => Fin x
  | _, _ => NaN
  end.

(** Truthiness of a number: false on zero and on [NaN]. *)
Definition truthy (a : jsnum) : bool :=
  match a with
  | NaN => false
  | Inf _ => true
  | Fin x => negb (Reqb x 0)
  end.

Definition string_of_Z (z : Z) : string :=
  NilZero.string_of_int (Z.to_int z).

(** Number to string, as a template literal does it.  The finite case
    prints the plain decimal of the whole part: that is the text of a
    whole number of magnitude below 1e21.  From 1e21 on JavaScript
    switches to exponent notation, which is outside the model; every
    statement about a text below is about whole numbers under 2^53. *)
Definition toString (a : jsnum) : string :=
  match a with
  | NaN => "NaN"
  | Inf false => "Infinity"
  | Inf true => "-Infinity"
  | Fin x => string_of_Z (Zfloor x)
  end.

End JsNum.
Import JsNum.

(** ** Exceptions and outcomes of event handlers *)

Inductive exn : Type :=
| TypeError
| IndexSizeError.

(** A handler either runs to completion or throws; in both cases the
    mutations done so far are kept. *)
Inductive outcome (S : Type) : Type :=
| Done (s : S)
| Threw (e : exn) (s : S).
Arguments Done {S} s.
Arguments Threw {S} e s.

Definition state_of {S : Type} (o : outcome S) : S :=
  match o with Done s | Threw _ s => s end.

Definition completed {S : Type} (o : outcome S) : bool :=
  match o with Done _ => true | Threw _ _ => false end.

Definition bind {S : Type} (o : outcome S) (k : S -> outcome S) : outcome S :=
  match o with
  | Done s => k s
  | Threw e s => Threw e s
  end.

(** ** The media element

    The element is an external collaborator; only the attributes the
    component reads and writes are kept.  [duration] is [NaN] until the
    metadata has arrived and may be [Infinity] for a stream. *)

Record audio : Type := mkAudio {
  currentTime : R;
  duration : jsnum;
  volume : R;
  muted : bool
}.

(** Assigning [audio.currentTime]: the attribute is a finite double, a
    non-finite value throws a [TypeError]. *)
Definition set_currentTime (a : audio) (t : jsnum) : outcome audio :=
  match t with
  | Fin x => Done (mkAudio x (duration a) (volume a) (muted a))
  | _ => Threw TypeError a
  end.

(** Assigning [audio.volume]: non-finite throws a [TypeError], a value
    outside [0,1] an [IndexSizeError]. *)
Definition set_volume (a : audio) (v : jsnum) : outcome audio :=
  match v with
  | Fin x =>
      if Rltb x 0 || Rltb 1 x then Threw IndexSizeError a
      else Done (mkAudio (currentTime a) (duration a) x (muted a))
  | _ => Threw TypeError a
  end.

Definition set_muted (a : audio) (m : bool) : audio :=
  mkAudio (currentTime a) (duration a) (volume a) m.

(** ** Canvas geometry *)

Record canvas : Type := mkCanvas {
  width : R;
  height : R
}.

(** ** Playback controller *)

(** The part of the component state the transport handlers touch: the
    media element, the reactive [isMuted] flag, [isSeeking], the cached
    canvas size and the styles and texts written to the control bar. *)
Record player : Type := mkPlayer {
  aud : audio;
  isMuted : bool;
  isSeeking : bool;
  canvasSize : canvas;
  timeNow : string;            (* timeNow.innerText *)
  barPlayedWidth : jsnum;      (* barPlayed.style.width, in percent *)
  seekerLeft : jsnum;          (* seeker.style.left, in percent *)
  barVolumeNowHeight : jsnum   (* barVolumeNow.style.height, in percent *)
}.

Definition with_aud (p : player) (a : audio) : player :=
  mkPlayer a (isMuted p) (isSeeking p) (canvasSize p) (timeNow p)
    (barPlayedWidth p) (seekerLeft p) (barVolumeNowHeight p).

Definition parseSecondsToTime (seconds : jsnum) : string :=
  let sec := floor (rem seconds (Fin 60)) in
  let min := floor (div seconds (Fin 60)) in
  ((if lt min (Fin 10) then "0" else "") ++ toString min ++ ":" ++
   (if lt sec (Fin 10) then "0" else "") ++ toString sec)%string.

(** Assigning [`${v}%`] to a style property.  A text that is not a valid
    value is ignored and the property keeps what it had: "NaN%" and
    "Infinity%" always, and a negative percentage for a width. *)
Definition setWidthPercent (old v : jsnum) : jsnum :=
  match v with
  | Fin r => if Rltb r 0 then old else v
  | _ => old
  end.

Definition setLeftPercent (old v : jsnum) : jsnum :=
  match v with
  | Fin _ => v
  | _ => old
  end.

Definition startSeeking (p : player) : player :=
  mkPlayer (aud p) (isMuted p) true (canvasSize p) (timeNow p)
    (barPlayedWidth p) (seekerLeft p) (barVolumeNowHeight p).

Definition endSeeking (p : player) : player :=
  let playedPercent :=
    mul (div (Fin (currentTime (aud p))) (duration (aud p))) (Fin 100) in
  mkPlayer (aud p) (isMuted p) false (canvasSize p)
    (parseSecondsToTime (Fin (currentTime (aud p))))
    (setWidthPercent (barPlayedWidth p) playedPercent)
    (setLeftPercent (seekerLeft p) playedPercent)
    (barVolumeNowHeight p).

(** [isNaN(audio.duration) ? 0 : audio.duration] *)
Definition durationOrZero (a : audio) : jsnum :=
  if isNaN (duration a) then Fin 0 else duration a.

(** The local [seekPercent] of [seekProgress] and [jumpProgress]. *)
Definition seekPercent (offsetX clientWidth : R) : jsnum :=
  div (Fin offsetX) (Fin clientWidth).

(** The local [seekTime] of [seekProgress]. *)
Definition seekTime (a : audio) (offsetX clientWidth : R) : jsnum :=
  floor (mul (seekPercent offsetX clientWidth) (durationOrZero a)).

(** [offsetX] is the pointer offset of the mouse event, [clientWidth]
    the width of the full progress bar. *)
Definition seekProgress (p : player) (offsetX clientWidth : R) : player :=
  let pc := seekPercent offsetX clientWidth in
  mkPlayer (aud p) (isMuted p) (isSeeking p) (canvasSize p)
    (parseSecondsToTime (seekTime (aud p) offsetX clientWidth))
    (setWidthPercent (barPlayedWidth p) (mul pc (Fin 100)))
    (setLeftPercent (seekerLeft p) (mul pc (Fin 100)))
    (barVolumeNowHeight p).

(** The value [setProgress] assigns to [audio.currentTime]. *)
Definition clampTime (a : audio) (time : jsnum) : jsnum :=
  if lt time (Fin 0) then Fin 0
  else if gt time (duration a) then duration a
  else time.

Definition setProgress (p : player) (time : jsnum) : outcome player :=
  match set_currentTime (aud p) (clampTime (aud p) time) with
  | Done a => Done (with_aud p a)
  | Threw e a => Threw e (with_aud p a)
  end.

Definition jumpProgress (p : player) (offsetX clientWidth : R)
  : outcome player :=
  setProgress p (mul (seekPercent offsetX clientWidth) (durationOrZero (aud p))).

Definition toggleMute (p : player) : player :=
  let a := set_muted (aud p) (negb (muted (aud p))) in
  mkPlayer a (muted a) (isSeeking p) (canvasSize p) (timeNow p)
    (barPlayedWidth p) (seekerLeft p) (barVolumeNowHeight p).

Definition setVolume (p : player) (volumePercent : jsnum) : outcome player :=
  if lt volumePercent (Fin 0) then
    Done (if negb (isMuted p) then toggleMute p else p)
  else
    let v := if gt volumePercent (Fin 1) then Fin 1 else volumePercent in
    let p1 := if isMuted p then toggleMute p else p in
    match set_volume (aud p1) v with
    | Done a =>
        Done (mkPlayer a (isMuted p1) (isSeeking p1) (canvasSize p1)
                (timeNow p1) (barPlayedWidth p1) (seekerLeft p1)
                (mul v (Fin 100)))
    | Threw e a => Threw e (with_aud p1 a)
    end.

Definition jumpVolume (p : player) (offsetY clientHeight : R)
  : outcome player :=
  setVolume p (div (sub (Fin clientHeight) (Fin offsetY)) (Fin clientHeight)).

(** The wheel handler; [deltaX] and [deltaY] are the finite deltas of the
    wheel event. *)
Definition scrollEvent (p : player) (deltaX deltaY : R) : outcome player :=
  bind
    (if truthy (Fin deltaX) then
       setProgress p
         (sub (Fin (currentTime (aud p)))
              (mul (div (Fin deltaX) (Fin (width (canvasSize p))))
                   (duration (aud p))))
     else Done p)
    (fun p1 =>
       if truthy (Fin deltaY) then
         setVolume p1
           (sub (Fin (volume (aud p1)))
                (div (Fin deltaY) (Fin (height (canvasSize p1)))))
       else Done p1).

(** The element as [initAudio] leaves it: a fresh [Audio] with the volume
    set to 0.8. *)
Definition initAudio : audio := mkAudio 0 NaN (8 / 10) false.

Definition initPlayer (c : canvas) : player :=
  mkPlayer initAudio false false c "00:00" (Fin 0) (Fin 0)
    (Fin (volume initAudio * 100)).

(** The reactive flag and the element's attribute agree. *)
Definition lock_step (p : player) : Prop := isMuted p = muted (aud p).

(** The states the volume controls can reach from the initial one. *)
Inductive volume_reachable (c : canvas) : player -> Prop :=
| vr_init : volume_reachable c (initPlayer c)
| vr_toggle p : volume_reachable c p -> volume_reachable c (toggleMute p)
| vr_set p v p' :
    volume_reachable c p -> setVolume p v = Done p' -> volume_reachable c p'.

(** The seek preview as the specification words it: the pointer fraction
    clamped to [0,1], times the duration (0 while it is unknown). *)
Definition clamp01 (x : R) : R := Rmax 0 (Rmin 1 x).


(** ** Animation scheduler

    The window's timer table and animation-frame callback list are kept
    next to the two handles of the component.  Every interval timer runs
    the stepper callback and every frame callback is [render], so a list
    of handles describes each of them.  Handles are positive integers;
    zero is the component's "not running" sentinel. *)

Module Scheduler.

Record sched : Type := mkSched {
  stepEventId : N;
  flushEventId : N;
  intervals : list N;   (* active [setInterval] timers *)
  frames : list N;      (* pending [requestAnimationFrame] callbacks *)
  lastTimer : N;        (* last timer handle handed out *)
  lastFrame : N         (* last frame-request handle handed out *)
}.

(** [setInterval(cb, 20)]: registers a timer, returns its fresh handle. *)
Definition setInterval (s : sched) : N * sched :=
  let h := N.succ (lastTimer s) in
  (h, mkSched (stepEventId s) (flushEventId s) (intervals s ++ [h])%list
        (frames s) h (lastFrame s)).

Definition clearInterval (h : N) (s : sched) : sched :=
  mkSched (stepEventId s) (flushEventId s) (remove N.eq_dec h (intervals s))
    (frames s) (lastTimer s) (lastFrame s).

(** [requestAnimationFrame(render)] *)
Definition requestAnimationFrame (s : sched) : N * sched :=
  let h := N.succ (lastFrame s) in
  (h, mkSched (stepEventId s) (flushEventId s) (intervals s)
        (frames s ++ [h])%list (lastTimer s) h).

Definition cancelAnimationFrame (h : N) (s : sched) : sched :=
  mkSched (stepEventId s) (flushEventId s) (intervals s)
    (remove N.eq_dec h (frames s)) (lastTimer s) (lastFrame s).

Definition set_stepEventId (h : N) (s : sched) : sched :=
  mkSched h (flushEventId s) (intervals s) (frames s)
    (lastTimer s) (lastFrame s).

Definition set_flushEventId (h : N) (s : sched) : sched :=
  mkSched (stepEventId s) h (intervals s) (frames s)
    (lastTimer s) (lastFrame s).

Definition startStep (s : sched) : sched :=
  let s1 :=
    if (stepEventId s =? 0)%N then
      let (h, s') := setInterval s in set_stepEventId h s'
    else s in
  if (flushEventId s1 =? 0)%N then
    let (h, s') := requestAnimationFrame s1 in set_flushEventId h s'
  else s1.

Definition stopStep (s : sched) : sched :=
  let s1 :=
    if negb (stepEventId s =? 0)%N then
      set_stepEventId 0 (clearInterval (stepEventId s) s)
    else s in
  if negb (flushEventId s1 =? 0)%N then
    set_flushEventId 0 (cancelAnimationFrame (flushEventId s1) s1)
  else s1.

(** The end of [render]: "not single run" re-requests the next frame.
    The handle of the new request is dropped. *)
Definition render_reschedule (s : sched) : sched :=
  if negb (flushEventId s =? 0)%N then snd (requestAnimationFrame s) else s.

(** The one-shot flush of the resize observer and of [getCoverColor]. *)
Definition flushCanvas (s : sched) : sched :=
  if (flushEventId s =? 0)%N then snd (requestAnimationFrame s) else s.

(** The scheduler when [init] returns: nothing runs and the first
    [render] is requested. *)
Definition init : sched :=
  snd (requestAnimationFrame (mkSched 0 0 [] [] 0 0)).

(** One display refresh: the browser takes the pending callbacks and runs
    each of them; requests made meanwhile wait for the next refresh. *)
Definition animationFrame (s : sched) : sched :=
  fold_left (fun s' _ => render_reschedule s') (frames s)
    (mkSched (stepEventId s) (flushEventId s) (intervals s) []
       (lastTimer s) (lastFrame s)).

(** Running stepper timers. *)
Definition activeSteppers (s : sched) : nat := List.length (intervals s).

(** Running redraw chains: pending [render] callbacks that will request
    their successor. *)
Definition activeRedrawChains (s : sched) : nat :=
  if (flushEventId s =? 0)%N then 0%nat else List.length (frames s).

(** The stepper handle is zero exactly when no timer runs, and
    otherwise it names the only timer; a non-zero redraw handle comes
    with a pending [render]. *)
Definition handles_consistent (s : sched) : Prop :=
  ((stepEventId s = 0%N /\ intervals s = []) \/
   (stepEventId s <> 0%N /\ intervals s = [stepEventId s])) /\
  (flushEventId s <> 0%N -> frames s <> []).

(** The scheduler states the component can be in. *)
Inductive reachable : sched -> Prop :=
| r_init : reachable init
| r_start s : reachable s -> reachable (startStep s)
| r_stop s : reachable s -> reachable (stopStep s)
| r_flush s : reachable s -> reachable (flushCanvas s)
| r_frame s : reachable s -> reachable (animationFrame s).

End Scheduler.

(** ** Geometric projection *)

Record point : Type := mkPoint {
  x : R;
  y : R
}.

Definition convertPolarToCartesian
    (radius angleInDegrees offsetX offsetY : R) : point :=
  let angleInRadians := (angleInDegrees - 90) * (PI / 180) in
  mkPoint (radius * cos angleInRadians + offsetX)
          (radius * sin angleInRadians + offsetY).

(** The call with the default offsets, the centre of the canvas. *)
Definition convertPolarToCartesian_centre
    (c : canvas) (radius angleInDegrees : R) : point :=
  convertPolarToCartesian radius angleInDegrees (width c / 2) (height c / 2).

(** ** Constants *)

Definition FREQ_BIN_COUNT : nat := 256.

Module FRAGMENTS_SETTINGS.
Definition count : nat := 256.
Definition minRadius : R := 1 / 150.
Definition maxRadius : R := 1 / 60.
Definition stepRadius : R := 1 / 2000.
Definition stepAngle : R := 1.5.
End FRAGMENTS_SETTINGS.

Definition ANGLE_STEP : R := 0.3.

Module RADIUS_LIMIT.
Definition min : R := 1 / 5.
Definition max : R := 3 / 8.
End RADIUS_LIMIT.

Definition ASPECT_RATIO : R := 16 / 9.

(** ** Spectrum geometry *)

Record freqRate : Type := mkFreqRate {
  radius : R;
  angleInDegrees : R
}.

(** What [initCanvasSize] derives from the container width. *)
Record canvasInit : Type := mkCanvasInit {
  size : canvas;
  freqMultiplyRate : freqRate;
  coverSide : R;      (* cover.width and cover.height *)
  lineWidth : R
}.

Definition initCanvasSize (w : R) : canvasInit :=
  let c := mkCanvas w (w / ASPECT_RATIO) in
  mkCanvasInit c
    (mkFreqRate
       (height c * (RADIUS_LIMIT.max - RADIUS_LIMIT.min) / 256)
       (360 / INR FREQ_BIN_COUNT))
    (height c * RADIUS_LIMIT.min * 2 - 4)
    (height c / 4 * 2 * PI / INR FREQ_BIN_COUNT * 2 / 3).

(** The stroke [render] draws for bin [i], whose magnitude byte is [m]. *)
Definition freqAngle (rate : freqRate) (angleOffset : R) (i : nat) : R :=
  angleInDegrees rate * INR i * 2 + angleOffset.

Definition freqEndRadius (c : canvas) (rate : freqRate) (vol : R) (m : Z) : R :=
  IZR m * radius rate * (vol * 0.5 + 0.5) + height c * RADIUS_LIMIT.min.

Definition freqStroke (c : canvas) (rate : freqRate) (angleOffset vol : R)
    (dataArray : list Z) (i : nat) : point * point :=
  let angleInDegree := freqAngle rate angleOffset i in
  (convertPolarToCartesian_centre c (height c * RADIUS_LIMIT.min) angleInDegree,
   convertPolarToCartesian_centre c
     (freqEndRadius c rate vol (nth i dataArray 0%Z)) angleInDegree).

(** The spectrum part of [render]: one stroke for each of the lower
    [FREQ_BIN_COUNT >> 1] bins. *)
Definition renderFrequency (c : canvas) (rate : freqRate)
    (angleOffset vol : R) (dataArray : list Z) : list (point * point) :=
  map (freqStroke c rate angleOffset vol dataArray)
      (seq 0 (Nat.shiftr FREQ_BIN_COUNT 1)).

(** The radius scale as the specification words it. *)
Definition spec_radiusScale (c : canvas) : R :=
  (height c * RADIUS_LIMIT.max - height c * RADIUS_LIMIT.min) / 255.

(** ** Particle field *)

Record FragmentProps : Type := mkFragment {
  selfRadius : R;
  selfAngle : R;
  positionRadius : R;
  positionAngle : R;
  stepRadius : R;
  stepAngle : R
}.

(** The type of the [fragmentSize] variable. *)
Module FragmentSize.
Record t : Type := mk {
  minSelfRadius : R;
  maxSelfRadius : R;
  minPositionRadius : R;
  maxPositionRadius : R;
  stepRadius : R
}.
End FragmentSize.

Definition initFragmentsSize (c : canvas) : FragmentSize.t :=
  let minPositionRadius := RADIUS_LIMIT.min * height c in
  FragmentSize.mk
    (FRAGMENTS_SETTINGS.minRadius * height c)
    (FRAGMENTS_SETTINGS.maxRadius * height c)
    minPositionRadius
    (width c / 2 - minPositionRadius)
    (FRAGMENTS_SETTINGS.stepRadius * width c).

Definition triangle : Type := (point * point * point)%type.

(** [drawFragment]: the returned flag, and the triangle it fills when the
    fragment is on the canvas. *)
Definition drawFragment (c : canvas) (props : FragmentProps)
  : bool * list triangle :=
  let center :=
    convertPolarToCartesian_centre c (positionRadius props)
      (positionAngle props) in
  if Rltb (x center + selfRadius props) 0
     || Rltb (width c) (x center - selfRadius props)
     || Rltb (y center + selfRadius props) 0
     || Rltb (height c) (y center - selfRadius props)
  then (false, [])
  else
    (true,
     [ (convertPolarToCartesian (selfRadius props) (selfAngle props)
          (x center) (y center),
        convertPolarToCartesian (selfRadius props) (120 + selfAngle props)
          (x center) (y center),
        convertPolarToCartesian (selfRadius props) (240 + selfAngle props)
          (x center) (y center)) ]).

(** The fragment part of the stepper callback. *)
Definition stepFragment (f : FragmentProps) : FragmentProps :=
  mkFragment (selfRadius f) (selfAngle f + stepAngle f)
    (positionRadius f + stepRadius f) (positionAngle f)
    (stepRadius f) (stepAngle f).

Section RandomSource.

(** [Math.random()]: the value of the [k]-th call. *)
Variable random : nat -> R.

(** The object literal of [initFragments], built from the calls
    [k], [k+1], ... in the order of its properties. *)
Definition newFragment (fs : FragmentSize.t) (k : nat) : FragmentProps :=
  mkFragment
    (random k * (FragmentSize.maxSelfRadius fs - FragmentSize.minSelfRadius fs)
       + FragmentSize.minSelfRadius fs)
    (random (k + 1) * 360)
    (random (k + 2)
       * (FragmentSize.maxPositionRadius fs - FragmentSize.minPositionRadius fs)
       + FragmentSize.minPositionRadius fs)
    (random (k + 3) * 360)
    ((random (k + 4) * 0.5 + 0.5) * FragmentSize.stepRadius fs)
    ((random (k + 5) * 2 - 1) * FRAGMENTS_SETTINGS.stepAngle).

(** The replacement built in [render] for a fragment that left the
    canvas. *)
Definition recycledFragment (fs : FragmentSize.t) (k : nat) : FragmentProps :=
  let selfRadius :=
    random k * (FragmentSize.maxSelfRadius fs - FragmentSize.minSelfRadius fs)
      + FragmentSize.minSelfRadius fs in
  mkFragment
    selfRadius
    (random (k + 1) * 360)
    (FragmentSize.minPositionRadius fs - selfRadius)
    (random (k + 2) * 360)
    ((random (k + 3) * 0.5 + 0.5) * FragmentSize.stepRadius fs)
    ((random (k + 4) * 2 - 1) * FRAGMENTS_SETTINGS.stepAngle).

(** The loop of [initFragments] over [n] slots: the fragments, what is
    drawn, and the number of random calls made so far. *)
Fixpoint initFragmentsLoop (c : canvas) (fs : FragmentSize.t) (n k : nat)
  : list FragmentProps * list triangle * nat :=
  match n with
  | O => ([], [], k)
  | S n' =>
      let f := newFragment fs k in
      let '(fr, lg, k') := initFragmentsLoop c fs n' (k + 6) in
      (f :: fr, (snd (drawFragment c f) ++ lg)%list, k')
  end.

(** The fragment loop of [render].  Slot [i] of the array is read and
    written in iteration [i] only, so the loop is a pass over the
    slots in order. *)
Fixpoint renderFragments (c : canvas) (fs : FragmentSize.t)
    (fragmentsArray : list FragmentProps) (k : nat)
  : list FragmentProps * list triangle * nat :=
  match fragmentsArray with
  | [] => ([], [], k)
  | f :: rest =>
      if fst (drawFragment c f) then
        let '(fr, lg, k') := renderFragments c fs rest k in
        (f :: fr, (snd (drawFragment c f) ++ lg)%list, k')
      else
        let f' := recycledFragment fs k in
        let '(fr, lg, k') := renderFragments c fs rest (k + 5) in
        (f' :: fr, (snd (drawFragment c f') ++ lg)%list, k')
  end.

(** The animated scene: canvas size, fragment sizing, the fragments,
    the rotation of the spectrum and the random calls made so far. *)
Record scene : Type := mkScene {
  sceneCanvas : canvas;
  fragmentSize : FragmentSize.t;
  fragmentsArray : list FragmentProps;
  angleOffset : R;
  randomCalls : nat
}.

(** [initCanvasSize] followed by [initFragments], as [init] runs
    them on the container width. *)
Definition initScene (clientWidth : R) : scene :=
  let c := size (initCanvasSize clientWidth) in
  let fs := initFragmentsSize c in
  let '(fr, _, k) := initFragmentsLoop c fs FRAGMENTS_SETTINGS.count 0 in
  mkScene c fs fr 0 k.

(** The callback of the 20 ms interval. *)
Definition tick (s : scene) : scene :=
  mkScene (sceneCanvas s) (fragmentSize s)
    (map stepFragment (fragmentsArray s))
    (angleOffset s + ANGLE_STEP) (randomCalls s).

(** The resize observer: new canvas size and fragment sizing, the
    fragments stay as they are. *)
Definition resize (clientWidth : R) (s : scene) : scene :=
  if truthy (Fin clientWidth) then
    let c := size (initCanvasSize clientWidth) in
    mkScene c (initFragmentsSize c) (fragmentsArray s) (angleOffset s)
      (randomCalls s)
  else s.

(** The fragment pass of one [render]. *)
Definition renderScene (s : scene) : scene * list triangle :=
  let '(fr, lg, k) :=
    renderFragments (sceneCanvas s) (fragmentSize s) (fragmentsArray s)
      (randomCalls s) in
  (mkScene (sceneCanvas s) (fragmentSize s) fr (angleOffset s) k, lg).

(** Scenes the component can show; an element's [clientWidth] is never
    negative. *)
Inductive scene_reachable : scene -> Prop :=
| sr_init w : 0 <= w -> scene_reachable (initScene w)
| sr_tick s : scene_reachable s -> scene_reachable (tick s)
| sr_resize w s : 0 <= w -> scene_reachable s -> scene_reachable (resize w s)
| sr_render s : scene_reachable s -> scene_reachable (fst (renderScene s)).

End RandomSource.

(** The bounding square of a fragment has no point in common with the
    canvas rectangle. *)
Definition fully_outside (c : canvas) (f : FragmentProps) : Prop :=
  let center :=
    convertPolarToCartesian_centre c (positionRadius f) (positionAngle f) in
  forall px py : R,
    x center - selfRadius f <= px <= x center + selfRadius f ->
    y center - selfRadius f <= py <= y center + selfRadius f ->
    ~ (0 <= px <= width c /\ 0 <= py <= height c).

(** What holds of every scene the component shows: the canvas has
    non-negative sides, the fragment sizing belongs to it, and no
    fragment has a negative drift or a negative size. *)
Definition fragment_ok (f : FragmentProps) : Prop :=
  0 <= stepRadius f /\ 0 <= selfRadius f.

Definition scene_invariant (s : scene) : Prop :=
  0 <= width (sceneCanvas s) /\ 0 <= height (sceneCanvas s) /\
  fragmentSize s = initFragmentsSize (sceneCanvas s) /\
  Forall fragment_ok (fragmentsArray s).

(** ** Palette adapter *)

Definition rgb : Type := (R * R * R)%type.

Inductive cssColor : Type :=
| Hex (code : string)                 (* the defaults, such as '#333' *)
| RgbColor (c : rgb)                  (* `rgb(r,g,b)` *)
| RgbaColor (c : rgb) (alpha : R).    (* `rgba(r,g,b,alpha)` *)

Record colorSet : Type := mkColors {
  bg : cssColor;
  freq : cssColor;
  fragments : cssColor
}.

Definition defaultColors : colorSet :=
  mkColors (Hex "#333") (Hex "#fff") (Hex "#fff6").

(** The loop "ensure 3 colors".  An entry is [None] where the array
    holds [undefined]; [fuel] bounds the iterations. *)
Fixpoint ensure3_loop (fuel : nat) (palette : list (option rgb))
  : list (option rgb) :=
  match fuel with
  | O => palette
  | S fuel' =>
      if (List.length palette <? 3)%nat then
        ensure3_loop fuel'
          (palette ++ [match nth_error palette 0 with
                       | Some e => e
                       | None => None
                       end])%list
      else palette
  end.

(** Three iterations are all the loop can make. *)
Definition ensure3 (palette : list (option rgb)) : list (option rgb) :=
  ensure3_loop 3 palette.

Section ColorUtils.

(** The two conversions of [utils/color], which the component
    imports. *)
Variable rgbToHsl : R -> R -> R -> R * R * R.
Variable hslToRgb : R -> R -> R -> rgb.

Definition changeColor (rgbColor : rgb) (isDarken : bool) : rgb :=
  let '(r, g, b) := rgbColor in
  let '(h, s, _) := rgbToHsl r g b in
  hslToRgb h s (if isDarken then 0.3 else 0.85).

(** What [getCoverColor] leaves behind. *)
Record coverResult : Type := mkCoverResult {
  colors : colorSet;
  strokeStyle : cssColor;
  wrapperBackground : cssColor;
  coverSched : Scheduler.sched
}.

(** [palette] is the list the extractor returned.  Spreading an
    [undefined] entry into [rgbToHsl] throws. *)
Definition getCoverColor (palette : list rgb) (old : coverResult)
  : outcome coverResult :=
  let padded := ensure3 (map Some palette) in
  match nth_error padded 0, nth_error padded 1, nth_error padded 2 with
  | Some (Some c0), Some (Some c1), Some (Some c2) =>
      let cs :=
        mkColors (RgbColor (changeColor c0 true))
                 (RgbColor (changeColor c1 false))
                 (RgbaColor (changeColor c2 false) 0.4) in
      Done (mkCoverResult cs (freq cs) (bg cs)
              (Scheduler.flushCanvas (coverSched old)))
  | _, _, _ => Threw TypeError old
  end.

End ColorUtils.

(** ** Sample inputs *)

(** A random source that always answers 0. *)
Definition zeroRandom : nat -> R := fun _ => 0.

(** The scene built on a 1600 pixel wide container, and the same scene
    after the container shrank to 16 pixels. *)
Definition wideScene : scene := initScene zeroRandom 1600.
Definition shrunkScene : scene := resize 16 wideScene.

(** ** Play and pause

    [togglePlay] talks to the media element and to the audio context;
    the calls it makes are recorded.  The listeners that [initAudio]
    installs on the element update the reactive flags and drive the
    scheduler. *)

Inductive mediaCall : Type :=
| ContextResume    (* context.resume() *)
| AudioPlay        (* audio.play() *)
| AudioPause.      (* audio.pause() *)

Record control : Type := mkControl {
  isLoading : bool;
  isPlaying : bool;
  isContextResumed : bool;
  timers : Scheduler.sched
}.

(** [paused] is the value of [audio.paused] when the button is
    clicked. *)
Definition togglePlay (paused : bool) (s : control)
  : control * list mediaCall :=
  if negb (isLoading s) && paused then
    if negb (isContextResumed s) then
      (mkControl (isLoading s) (isPlaying s) true (timers s),
       [ContextResume; AudioPlay])
    else (s, [AudioPlay])
  else (s, [AudioPause]).

(** The listeners for 'pause', 'play', 'waiting', 'playing' and
    'canplay'. *)
Definition onPause (s : control) : control :=
  mkControl (isLoading s) false (isContextResumed s)
    (Scheduler.stopStep (timers s)).

Definition onPlay (s : control) : control :=
  mkControl (isLoading s) true (isContextResumed s)
    (Scheduler.startStep (timers s)).

Definition onWaiting (s : control) : control :=
  mkControl true false (isContextResumed s) (timers s).

Definition onPlaying (s : control) : control :=
  mkControl false true (isContextResumed s) (timers s).

Definition onCanplay (s : control) : control :=
  mkControl false (isPlaying s) (isContextResumed s) (timers s).

(** What can happen to the component: a click on the play button, with
    the element's [paused] attribute at that moment, or one of the
    element's notifications. *)
Inductive happening : Type :=
| Click (paused : bool)
| Pause
| Play
| Waiting
| Playing
| Canplay.

Definition react (s : control) (e : happening) : control * list mediaCall :=
  match e with
  | Click paused => togglePlay paused s
  | Pause => (onPause s, [])
  | Play => (onPlay s, [])
  | Waiting => (onWaiting s, [])
  | Playing => (onPlaying s, [])
  | Canplay => (onCanplay s, [])
  end.

(** A run of happenings, with all the calls made on the way. *)
Fixpoint run (s : control) (es : list happening) : control * list mediaCall :=
  match es with
  | [] => (s, [])
  | e :: rest =>
      let (s1, calls1) := react s e in
      let (s2, calls2) := run s1 rest in
      (s2, (calls1 ++ calls2)%list)
  end.

(** The flags as the script declares them, with the scheduler as [init]
    leaves it. *)
Definition initControl : control :=
  mkControl true false false Scheduler.init.

Definition isResume (c : mediaCall) : bool :=
  match c with ContextResume => true | _ => false end.

Definition isPlayCall (c : mediaCall) : bool :=
  match c with AudioPlay => true | _ => false end.

(** ** Buffered progress *)

(** The loop of the 'progress' listener over [audio.buffered]; [ends]
    are the values of [audio.buffered.end(i)] in order. *)
Fixpoint latestBufferedFrom (latestBuffered : R) (ends : list R) : R :=
  match ends with
  | [] => latestBuffered
  | e :: rest =>
      latestBufferedFrom (if Rltb latestBuffered e then e else latestBuffered)
        rest
  end.

Definition latestBuffered (ends : list R) : R := latestBufferedFrom 0 ends.

(** The width of the buffered bar after the listener has run; [old] is
    the width it had. *)
Definition bufferedWidth (old : jsnum) (a : audio) (ends : list R) : jsnum :=
  setWidthPercent old
    (mul (div (Fin (latestBuffered ends)) (duration a)) (Fin 100)).

(** ** Progress indicators in [render] *)

(** The "update progress" part of [render]. *)
Definition renderProgress (p : player) : player :=
  let playedPercent :=
    mul (div (Fin (currentTime (aud p))) (duration (aud p))) (Fin 100) in
  mkPlayer (aud p) (isMuted p) (isSeeking p) (canvasSize p)
    (if negb (isSeeking p) then parseSecondsToTime (Fin (currentTime (aud p)))
     else timeNow p)
    (setWidthPercent (barPlayedWidth p) playedPercent)
    (if negb (isSeeking p) then setLeftPercent (seekerLeft p) playedPercent
     else seekerLeft p)
    (barVolumeNowHeight p).

(** Fragments of a list that [drawFragment] refuses. *)
Definition offCanvas (c : canvas) (l : list FragmentProps) : nat :=
  List.length (filter (fun f => negb (fst (drawFragment c f))) l).

(* ================================================================= *)
(** * Properties *)

(** ** Numbers *)

Lemma Rltb_true x y : Rltb x y = true <-> x < y.
Proof. unfold Rltb; destruct (Rlt_dec x y); split; (congruence || tauto). Qed.

Lemma Rltb_false x y : Rltb x y = false <-> y <= x.
Proof.
  unfold Rltb; destruct (Rlt_dec x y); split; intros; try congruence; lra.
Qed.

Lemma Reqb_true x y : Reqb x y = true <-> x = y.
Proof. unfold Reqb; destruct (Req_dec_T x y); split; (congruence || tauto). Qed.

Lemma Reqb_false x y : Reqb x y = false <-> x <> y.
Proof. unfold Reqb; destruct (Req_dec_T x y); split; (congruence || tauto). Qed.


Lemma Fin_inj x y : Fin x = Fin y -> x = y.
Proof. congruence. Qed.

Lemma lt_Fin x y : lt (Fin x) (Fin y) = Rltb x y.
Proof. reflexivity. Qed.

Lemma lt_NaN_r a : lt a NaN = false.
Proof. destruct a as [| [|] |]; reflexivity. Qed.

Lemma floor_integer z : floor (Fin (IZR z)) = Fin (IZR z).
Proof. simpl. now rewrite ZfloorZ. Qed.

(** ** Volume and mute *)

Lemma toggleMute_lock_step p : lock_step (toggleMute p).
Proof. reflexivity. Qed.

Lemma toggleMute_volume p : volume (aud (toggleMute p)) = volume (aud p).
Proof. reflexivity. Qed.

Lemma setVolume_negative p v :
  lt v (Fin 0) = true ->
  setVolume p v = Done (if negb (isMuted p) then toggleMute p else p).
Proof. intros H. unfold setVolume. now rewrite H. Qed.

Lemma setVolume_in_range p x :
  0 <= x <= 1 ->
  let p1 := if isMuted p then toggleMute p else p in
  setVolume p (Fin x) =
    Done (mkPlayer (mkAudio (currentTime (aud p1)) (duration (aud p1)) x
                      (muted (aud p1)))
            (isMuted p1) (isSeeking p1) (canvasSize p1) (timeNow p1)
            (barPlayedWidth p1) (seekerLeft p1) (Fin (x * 100))).
Proof.
  intros Hx p1. unfold setVolume, gt. rewrite !lt_Fin.
  replace (Rltb x 0) with false by (symmetry; apply Rltb_false; lra).
  replace (Rltb 1 x) with false by (symmetry; apply Rltb_false; lra).
  fold p1. unfold set_volume.
  replace (Rltb x 0) with false by (symmetry; apply Rltb_false; lra).
  replace (Rltb 1 x) with false by (symmetry; apply Rltb_false; lra).
  reflexivity.
Qed.

Lemma setVolume_above p v :
  gt v (Fin 1) = true ->
  setVolume p v = setVolume p (Fin 1).
Proof.
  intros H. unfold setVolume. rewrite H.
  assert (Hn : lt v (Fin 0) = false).
  { destruct v as [| [|] | x]; simpl in *; try congruence.
    unfold gt in H; simpl in H. apply Rltb_true in H. apply Rltb_false. lra. }
  rewrite Hn. unfold gt. rewrite !lt_Fin.
  replace (Rltb 1 0) with false by (symmetry; apply Rltb_false; lra).
  replace (Rltb 1 1) with false by (symmetry; apply Rltb_false; lra).
  reflexivity.
Qed.

Lemma setVolume_lock_step p v p' :
  lock_step p -> setVolume p v = Done p' -> lock_step p'.
Proof.
  unfold lock_step, setVolume. intros L.
  destruct (lt v (Fin 0)).
  - intros [= <-]. destruct (isMuted p) eqn:E; simpl; congruence.
  - set (v' := if gt v (Fin 1) then Fin 1 else v).
    destruct (isMuted p) eqn:E;
      destruct v' as [| s | x]; simpl; try discriminate;
      destruct (Rltb x 0 || Rltb 1 x); try discriminate;
      intros [= <-]; simpl; congruence.
Qed.

Lemma volume_reachable_lock_step c p : volume_reachable c p -> lock_step p.
Proof.
  induction 1.
  - reflexivity.
  - apply toggleMute_lock_step.
  - eapply setVolume_lock_step; eauto.
Qed.

(** C2: [setVolume] clamps to [0,1] and reads a negative argument as a
    mute gesture.  In a state whose two mute flags agree: a negative
    argument (such as -0.5) completes with the element muted and its
    volume untouched; an argument above 1 (such as 1.5) completes with
    volume exactly 1 and the element un-muted; an argument inside [0,1]
    is stored as it is; and the stored volume always ends in [0,1] when
    it started there. *)
Theorem setVolume_clamps (p : player) (L : lock_step p) :
  (forall v, lt v (Fin 0) = true ->
     exists p', setVolume p v = Done p' /\
       muted (aud p') = true /\ isMuted p' = true /\
       volume (aud p') = volume (aud p)) /\
  (forall v, gt v (Fin 1) = true ->
     exists p', setVolume p v = Done p' /\
       volume (aud p') = 1 /\ muted (aud p') = false /\ isMuted p' = false) /\
  (forall x, 0 <= x <= 1 ->
     exists p', setVolume p (Fin x) = Done p' /\
       volume (aud p') = x /\ muted (aud p') = false /\ isMuted p' = false) /\
  (forall v p', v <> NaN -> 0 <= volume (aud p) <= 1 ->
     state_of (setVolume p v) = p' ->
     completed (setVolume p v) = true /\ 0 <= volume (aud p') <= 1) /\
  (isMuted p = false ->
     exists p', setVolume p (Fin (-0.5)) = Done p' /\
       muted (aud p') = true /\ volume (aud p') = volume (aud p)) /\
  (exists p', setVolume p (Fin 1.5) = Done p' /\
       volume (aud p') = 1 /\ muted (aud p') = false).
Proof.
  assert (Hneg : forall v, lt v (Fin 0) = true ->
     exists p', setVolume p v = Done p' /\
       muted (aud p') = true /\ isMuted p' = true /\
       volume (aud p') = volume (aud p)).
  { intros v Hv. rewrite (setVolume_negative _ _ Hv).
    eexists; split; [reflexivity|].
    unfold lock_step in L.
    destruct (isMuted p) eqn:E; simpl.
    - rewrite <- L. auto.
    - rewrite <- L. auto. }
  assert (Hin : forall x, 0 <= x <= 1 ->
     exists p', setVolume p (Fin x) = Done p' /\
       volume (aud p') = x /\ muted (aud p') = false /\ isMuted p' = false).
  { intros x Hx. rewrite (setVolume_in_range _ _ Hx).
    eexists; split; [reflexivity|]. simpl.
    unfold lock_step in L.
    destruct (isMuted p) eqn:E; simpl; rewrite <- ?L; auto. }
  assert (Hab : forall v, gt v (Fin 1) = true ->
     exists p', setVolume p v = Done p' /\
       volume (aud p') = 1 /\ muted (aud p') = false /\ isMuted p' = false).
  { intros v Hv. rewrite (setVolume_above _ _ Hv). apply Hin. lra. }
  split; [exact Hneg|]. split; [exact Hab|]. split; [exact Hin|].
  split; [|split].
  - intros v p' Hnan Hvol Hst.
    assert (Hq : exists q, setVolume p v = Done q /\
                   0 <= volume (aud q) <= 1).
    { destruct (lt v (Fin 0)) eqn:E0.
      - destruct (Hneg v E0) as (q & Hq & _ & _ & Hv).
        exists q; split; [assumption | lra].
      - destruct (gt v (Fin 1)) eqn:E1.
        + destruct (Hab v E1) as (q & Hq & Hv & _).
          exists q; split; [assumption | lra].
        + destruct v as [| [|] | x]; simpl in *; try congruence.
          unfold gt in E1; simpl in E1.
          apply Rltb_false in E0, E1.
          destruct (Hin x (conj E0 E1)) as (q & Hq & Hv & _).
          exists q; split; [assumption | lra]. }
    destruct Hq as (q & Hq & Hv). rewrite Hq in *. simpl in Hst. subst q.
    split; [reflexivity | assumption].
  - intros _.
    destruct (Hneg (Fin (-0.5))) as (q & Hq & Hm & _ & Hv).
    { simpl. apply Rltb_true. lra. }
    exists q; auto.
  - destruct (Hab (Fin 1.5)) as (q & Hq & Hv & Hm & _).
    { unfold gt; simpl. apply Rltb_true. lra. }
    exists q; auto.
Qed.

Lemma setVolume_clamps_witness :
  lock_step (initPlayer (mkCanvas 1600 900)) /\
  (isMuted (initPlayer (mkCanvas 1600 900)) = false ->
   exists p', setVolume (initPlayer (mkCanvas 1600 900)) (Fin (-0.5)) = Done p' /\
     muted (aud p') = true /\
     volume (aud p') = volume (aud (initPlayer (mkCanvas 1600 900)))) /\
  exists p', setVolume (initPlayer (mkCanvas 1600 900)) (Fin 1.5) = Done p' /\
    volume (aud p') = 1 /\ muted (aud p') = false.
Proof.
  split; [reflexivity |].
  exact (proj2 (proj2 (proj2 (proj2
           (setVolume_clamps (initPlayer (mkCanvas 1600 900)) eq_refl))))).
Defined.

(** C10: zero is not a mute gesture.  In a state whose mute flags agree,
    [setVolume(0)] completes with the element volume 0, un-muted, and the
    indicator height 0%; and the controller reaches both a muted state
    with a non-zero stored volume and an un-muted state with volume 0,
    which are different states. *)
Theorem setVolume_zero_is_a_volume (p : player) (L : lock_step p) :
  (exists p', setVolume p (Fin 0) = Done p' /\
     volume (aud p') = 0 /\ muted (aud p') = false /\ isMuted p' = false /\
     barVolumeNowHeight p' = Fin 0) /\
  (forall c, exists s1 s2,
     volume_reachable c s1 /\ volume_reachable c s2 /\
     muted (aud s1) = true /\ isMuted s1 = true /\ volume (aud s1) <> 0 /\
     muted (aud s2) = false /\ isMuted s2 = false /\ volume (aud s2) = 0 /\
     s1 <> s2).
Proof.
  split.
  - rewrite setVolume_in_range by lra.
    eexists; split; [reflexivity|]. simpl. unfold lock_step in L.
    destruct (isMuted p) eqn:E; simpl; rewrite <- ?L;
      repeat split; auto; f_equal; lra.
  - intros c.
    assert (H0 : 0 <= 0 <= 1) by lra.
    pose proof (setVolume_in_range (initPlayer c) 0 H0) as Hs. simpl in Hs.
    eexists (toggleMute (initPlayer c)), _.
    split; [apply vr_toggle, vr_init|].
    split; [eapply vr_set; [apply vr_init | exact Hs]|].
    simpl. repeat split; auto; try lra.
    intros [= ?].
Qed.

Lemma setVolume_zero_is_a_volume_witness :
  lock_step (toggleMute (initPlayer (mkCanvas 1600 900))) /\
  exists p', setVolume (toggleMute (initPlayer (mkCanvas 1600 900))) (Fin 0)
               = Done p' /\
     volume (aud p') = 0 /\ muted (aud p') = false /\ isMuted p' = false /\
     barVolumeNowHeight p' = Fin 0.
Proof.
  split; [reflexivity |].
  exact (proj1 (setVolume_zero_is_a_volume
                  (toggleMute (initPlayer (mkCanvas 1600 900))) eq_refl)).
Defined.

(** ** Seeking *)

Lemma seekPercent_finite x w : w <> 0 -> seekPercent x w = Fin (x / w).
Proof.
  intros Hw. unfold seekPercent, div.
  now replace (Reqb w 0) with false by (symmetry; now apply Reqb_false).
Qed.


Lemma seekTime_unresolved a x w :
  w <> 0 -> duration a = NaN -> seekTime a x w = Fin 0.
Proof.
  intros Hw Hd. unfold seekTime, durationOrZero.
  rewrite seekPercent_finite, Hd by assumption. simpl.
  replace (x / w * 0) with (IZR 0) by lra. now rewrite ZfloorZ.
Qed.


Lemma clamp01_above x : 1 <= x -> clamp01 x = 1.
Proof.
  intros H. unfold clamp01, Rmax, Rmin.
  destruct (Rle_dec 1 x); destruct (Rle_dec 0 _); lra.
Qed.


Lemma Zfloor_div60 z : Zfloor (IZR z / 60) = (z / 60)%Z.
Proof.
  apply Zfloor_eq.
  pose proof (Z.div_mod z 60 ltac:(lia)) as E.
  pose proof (Z.mod_pos_bound z 60 ltac:(lia)) as B.
  assert (Ez : IZR z = 60 * IZR (z / 60) + IZR (z mod 60)).
  { rewrite E at 1. rewrite plus_IZR, mult_IZR. reflexivity. }
  assert (B1 : 0 <= IZR (z mod 60)) by (apply IZR_le; lia).
  assert (B2 : IZR (z mod 60) < 60) by (apply IZR_lt; lia).
  lra.
Qed.

(** On a whole, non-negative number of seconds the clock text is the
    usual zero-padded minutes and seconds. *)
Lemma parseSecondsToTime_whole z :
  (0 <= z)%Z ->
  parseSecondsToTime (Fin (IZR z)) =
    ((if (z / 60 <? 10)%Z then "0" else "") ++ string_of_Z (z / 60) ++ ":" ++
     (if (z mod 60 <? 10)%Z then "0" else "") ++ string_of_Z (z mod 60))%string.
Proof.
  intros Hz. unfold parseSecondsToTime, rem, div.
  replace (Reqb 60 0) with false by (symmetry; apply Reqb_false; lra).
  assert (Hq : 0 <= IZR z / 60).
  { apply Rmult_le_pos; [apply IZR_le; lia | lra]. }
  unfold Ztrunc.
  replace (Rltb (IZR z / 60) 0) with false by (symmetry; apply Rltb_false; lra).
  rewrite Zfloor_div60.
  assert (Hs : IZR z - 60 * IZR (z / 60) = IZR (z mod 60)).
  { pose proof (Z.div_mod z 60 ltac:(lia)) as E.
    rewrite E at 1. rewrite plus_IZR, mult_IZR. lra. }
  rewrite Hs. simpl floor. simpl toString. rewrite !ZfloorZ.
  rewrite !lt_Fin.
  assert (Hb : forall k, Rltb (IZR k) 10 = (k <? 10)%Z).
  { intros k. destruct (k <? 10)%Z eqn:E.
    - apply Rltb_true. apply Z.ltb_lt in E. now apply IZR_lt.
    - apply Rltb_false. apply Z.ltb_ge in E. now apply IZR_le. }
  rewrite !Hb, !Zfloor_div60. reflexivity.
Qed.

Lemma Zfloor_nonneg t : 0 <= t -> (0 <= Zfloor t)%Z.
Proof. intros H. now apply Zfloor_lub. Qed.

Lemma Zfloor_minutes t :
  0 <= t -> Zfloor (t / 60) = (Zfloor t / 60)%Z.
Proof.
  intros Ht. apply Zfloor_eq.
  pose proof (Zfloor_bound t) as [B1 B2].
  pose proof (Z.div_mod (Zfloor t) 60 ltac:(lia)) as E.
  pose proof (Z.mod_pos_bound (Zfloor t) 60 ltac:(lia)) as B.
  assert (Ez : IZR (Zfloor t)
               = 60 * IZR (Zfloor t / 60) + IZR (Zfloor t mod 60)).
  { rewrite E at 1. rewrite plus_IZR, mult_IZR. reflexivity. }
  assert (M1 : 0 <= IZR (Zfloor t mod 60)) by (apply IZR_le; lia).
  assert (M2 : IZR (Zfloor t mod 60) <= 59) by (apply IZR_le; lia).
  lra.
Qed.

Lemma Zfloor_seconds t :
  0 <= t ->
  Zfloor (t - 60 * IZR (Zfloor t / 60)) = (Zfloor t mod 60)%Z.
Proof.
  intros Ht. apply Zfloor_eq.
  pose proof (Zfloor_bound t) as [B1 B2].
  pose proof (Z.div_mod (Zfloor t) 60 ltac:(lia)) as E.
  assert (Ez : IZR (Zfloor t)
               = 60 * IZR (Zfloor t / 60) + IZR (Zfloor t mod 60)).
  { rewrite E at 1. rewrite plus_IZR, mult_IZR. reflexivity. }
  lra.
Qed.

(** In the model, where division is exact, the clock text of any
    non-negative number of seconds is that of its whole part. *)
Lemma parseSecondsToTime_real (t : R) (Ht : 0 <= t) :
  parseSecondsToTime (Fin t) =
    ((if (Zfloor t / 60 <? 10)%Z then "0" else "")
       ++ string_of_Z (Zfloor t / 60) ++ ":" ++
     (if (Zfloor t mod 60 <? 10)%Z then "0" else "")
       ++ string_of_Z (Zfloor t mod 60))%string /\
  parseSecondsToTime (floor (Fin t)) = parseSecondsToTime (Fin t).
Proof.
  assert (G : parseSecondsToTime (Fin t) =
    ((if (Zfloor t / 60 <? 10)%Z then "0" else "")
       ++ string_of_Z (Zfloor t / 60) ++ ":" ++
     (if (Zfloor t mod 60 <? 10)%Z then "0" else "")
       ++ string_of_Z (Zfloor t mod 60))%string).
  { unfold parseSecondsToTime, rem, div.
    replace (Reqb 60 0) with false by (symmetry; apply Reqb_false; lra).
    unfold Ztrunc.
    replace (Rltb (t / 60) 0) with false by (symmetry; apply Rltb_false; lra).
    rewrite Zfloor_minutes by assumption.
    simpl floor. simpl toString.
    rewrite Zfloor_seconds, Zfloor_minutes by assumption.
    rewrite !ZfloorZ, !lt_Fin.
    assert (Hb : forall k, Rltb (IZR k) 10 = (k <? 10)%Z).
    { intros k. destruct (k <? 10)%Z eqn:E.
      - apply Rltb_true. apply Z.ltb_lt in E. now apply IZR_lt.
      - apply Rltb_false. apply Z.ltb_ge in E. now apply IZR_le. }
    now rewrite !Hb. }
  split; [exact G|].
  rewrite G. simpl floor.
  rewrite parseSecondsToTime_whole by now apply Zfloor_nonneg.
  reflexivity.
Qed.



(** With a known, non-negative duration [setProgress] never throws and
    leaves the position inside [0, duration], whatever number it gets
    short of [NaN]. *)
Lemma setProgress_clamps p time d :
  duration (aud p) = Fin d -> 0 <= d -> time <> NaN ->
  exists p', setProgress p time = Done p' /\
    0 <= currentTime (aud p') <= d /\
    Fin (currentTime (aud p')) = clampTime (aud p) time.
Proof.
  intros Hd Hd0 Hn. unfold setProgress, clampTime, gt. rewrite Hd.
  destruct time as [| [|] | x]; simpl; try congruence.
  - eexists; split; [reflexivity|]. simpl. split; [lra | reflexivity].
  - eexists; split; [reflexivity|]. simpl. split; [lra | reflexivity].
  - destruct (Rltb x 0) eqn:E0; simpl.
    + eexists; split; [reflexivity|]. simpl. split; [lra | reflexivity].
    + destruct (Rltb d x) eqn:E1; simpl.
      * eexists; split; [reflexivity|]. simpl. split; [lra | reflexivity].
      * apply Rltb_false in E0, E1.
        eexists; split; [reflexivity|]. simpl. split; [lra | reflexivity].
Qed.

(** A click on the progress bar is safe while the duration is unknown:
    [jumpProgress] replaces it by 0 before calling [setProgress]. *)
Lemma jumpProgress_unresolved p x w :
  w <> 0 -> duration (aud p) = NaN ->
  exists p', jumpProgress p x w = Done p' /\ currentTime (aud p') = 0.
Proof.
  intros Hw Hd. unfold jumpProgress, durationOrZero, setProgress, clampTime, gt.
  rewrite seekPercent_finite, Hd by assumption. simpl.
  replace (Rltb (x / w * 0) 0) with false by (symmetry; apply Rltb_false; lra).
  simpl. eexists; split; [reflexivity|]. simpl. lra.
Qed.

(** C6 at the failing input: a horizontal wheel gesture while the
    duration is still unknown.  The time handed to [setProgress] is
    [NaN], neither guard of the clamp fires, and the assignment to
    [currentTime] throws instead of seeking; the click path on the same
    state completes. *)
Theorem scrollEvent_unresolved_duration :
  clampTime (aud (initPlayer (mkCanvas 1600 900)))
    (sub (Fin 0) (mul (div (Fin 10) (Fin 1600)) NaN)) = NaN /\
  scrollEvent (initPlayer (mkCanvas 1600 900)) 10 0
    = Threw TypeError (initPlayer (mkCanvas 1600 900)) /\
  completed (scrollEvent (initPlayer (mkCanvas 1600 900)) 10 0) = false /\
  completed (jumpProgress (initPlayer (mkCanvas 1600 900)) 50 200) = true.
Proof.
  assert (T : truthy (Fin 10) = true).
  { simpl. apply negb_true_iff, Reqb_false. lra. }
  assert (D : div (Fin 10) (Fin 1600) = Fin (10 / 1600)).
  { unfold div. now replace (Reqb 1600 0) with false
      by (symmetry; apply Reqb_false; lra). }
  assert (S : scrollEvent (initPlayer (mkCanvas 1600 900)) 10 0
              = Threw TypeError (initPlayer (mkCanvas 1600 900))).
  { unfold scrollEvent. rewrite T. simpl width. simpl duration.
    simpl currentTime. rewrite D. reflexivity. }
  split; [now rewrite D|]. split; [exact S|]. split; [now rewrite S|].
  destruct (jumpProgress_unresolved (initPlayer (mkCanvas 1600 900)) 50 200)
    as (q & -> & _); (lra || reflexivity).
Qed.

(** ** Animation scheduler *)

Section SchedulerFacts.
Import Scheduler.

Lemma startStep_handles s :
  stepEventId (startStep s) <> 0%N /\ flushEventId (startStep s) <> 0%N.
Proof.
  unfold startStep.
  destruct (stepEventId s =? 0)%N eqn:E1; simpl;
    destruct (flushEventId s =? 0)%N eqn:E2; simpl;
    rewrite ?N.eqb_neq in *; split; auto using N.neq_succ_0.
Qed.

Lemma startStep_running s :
  stepEventId s <> 0%N -> flushEventId s <> 0%N -> startStep s = s.
Proof.
  intros H1 H2. unfold startStep.
  apply N.eqb_neq in H1, H2. now rewrite H1, H2.
Qed.

(** A second start changes nothing. *)
Lemma startStep_idempotent s : startStep (startStep s) = startStep s.
Proof. apply startStep_running; apply startStep_handles. Qed.

Lemma stopStep_handles s :
  stepEventId (stopStep s) = 0%N /\ flushEventId (stopStep s) = 0%N.
Proof.
  unfold stopStep.
  destruct (stepEventId s =? 0)%N eqn:E1; simpl;
    destruct (flushEventId s =? 0)%N eqn:E2; simpl;
    rewrite ?N.eqb_eq in *; auto.
Qed.

(** A second stop changes nothing, and both handles are zero after a
    stop. *)
Lemma stopStep_idempotent s : stopStep (stopStep s) = stopStep s.
Proof.
  destruct (stopStep_handles s) as [H1 H2].
  unfold stopStep at 1. rewrite H1. simpl. now rewrite H2.
Qed.

Lemma fold_reschedule_fields (l : list N) s :
  let s' := fold_left (fun a _ => render_reschedule a) l s in
  stepEventId s' = stepEventId s /\ flushEventId s' = flushEventId s /\
  intervals s' = intervals s /\
  List.length (frames s') =
    (List.length (frames s) +
     if (flushEventId s =? 0)%N then 0 else List.length l)%nat.
Proof.
  revert s. induction l as [|h l IH]; intros s; simpl.
  - repeat split; auto. destruct (_ =? _)%N; lia.
  - specialize (IH (render_reschedule s)). simpl in IH.
    destruct IH as (I1 & I2 & I3 & I4).
    rewrite I1, I2, I3, I4. unfold render_reschedule.
    destruct (flushEventId s =? 0)%N eqn:E; simpl; rewrite ?E;
      repeat split; auto.
    rewrite length_app. simpl. lia.
Qed.

(** A refresh keeps both handles and the timers, and leaves as many
    pending [render] callbacks as there were running chains. *)
Lemma animationFrame_fields s :
  stepEventId (animationFrame s) = stepEventId s /\
  flushEventId (animationFrame s) = flushEventId s /\
  intervals (animationFrame s) = intervals s /\
  List.length (frames (animationFrame s)) = activeRedrawChains s.
Proof.
  unfold animationFrame, activeRedrawChains.
  match goal with |- context [fold_left ?f ?l ?a] =>
    pose proof (fold_reschedule_fields l a) as H end.
  simpl in H. destruct H as (H1 & H2 & H3 & H4).
  rewrite H1, H2, H3, H4. repeat split; auto.
Qed.

Lemma animationFrame_chains s :
  activeRedrawChains (animationFrame s) = activeRedrawChains s.
Proof.
  destruct (animationFrame_fields s) as (_ & H2 & _ & H4).
  unfold activeRedrawChains at 1. rewrite H2, H4.
  unfold activeRedrawChains. now destruct (_ =? _)%N.
Qed.

Lemma animationFrames_chains n s :
  activeRedrawChains (Nat.iter n animationFrame s) = activeRedrawChains s.
Proof.
  induction n as [|n IH]; simpl; [reflexivity|].
  now rewrite animationFrame_chains.
Qed.

Lemma reachable_consistent s : reachable s -> handles_consistent s.
Proof.
  unfold handles_consistent.
  induction 1 as [| s R IH | s R IH | s R IH | s R IH].
  - split; [left; split; reflexivity | intros _; discriminate].
  - destruct IH as [IH1 IH2]. unfold startStep.
    destruct (stepEventId s =? 0)%N eqn:E1; simpl;
      destruct (flushEventId s =? 0)%N eqn:E2; simpl;
      rewrite ?N.eqb_eq, ?N.eqb_neq in *.
    + split.
      * right. destruct IH1 as [[_ ->] | [? _]]; [|congruence].
        split; [apply N.neq_succ_0 | reflexivity].
      * intros _ C. now apply app_eq_nil in C.
    + split; [|auto].
      right. destruct IH1 as [[_ ->] | [? _]]; [|congruence].
      split; [apply N.neq_succ_0 | reflexivity].
    + split; [|intros _ C; now apply app_eq_nil in C].
      destruct IH1 as [[? _] | ?]; [congruence | now right].
    + split; [|auto]. destruct IH1 as [[? _] | ?]; [congruence | now right].
  - destruct IH as [IH1 IH2]. unfold stopStep.
    destruct (stepEventId s =? 0)%N eqn:E1; simpl;
      destruct (flushEventId s =? 0)%N eqn:E2; simpl;
      rewrite ?N.eqb_eq, ?N.eqb_neq in *.
    + split; [|congruence]. destruct IH1 as [? | [? _]]; [now left | congruence].
    + split; [|congruence]. destruct IH1 as [? | [? _]]; [now left | congruence].
    + split; [|congruence]. left. split; [reflexivity|].
      destruct IH1 as [[? _] | [_ ->]]; [congruence|]. simpl.
      now destruct (N.eq_dec _ _).
    + split; [|congruence]. left. split; [reflexivity|].
      destruct IH1 as [[? _] | [_ ->]]; [congruence|]. simpl.
      now destruct (N.eq_dec _ _).
  - destruct IH as [IH1 IH2]. unfold flushCanvas.
    destruct (flushEventId s =? 0)%N eqn:E2; simpl; [|split; auto].
    apply N.eqb_eq in E2. split; [exact IH1 | congruence].
  - destruct IH as [IH1 IH2].
    destruct (animationFrame_fields s) as (H1 & H2 & H3 & H4).
    rewrite H1, H2, H3. split; [exact IH1|].
    intros Hf C. specialize (IH2 Hf).
    rewrite C in H4. unfold activeRedrawChains in H4.
    apply N.eqb_neq in Hf. rewrite Hf in H4.
    destruct (frames s); [congruence | discriminate].
Qed.

(** On every reachable state a handle is non-zero exactly when its loop
    runs. *)
Lemma handles_iff_active s :
  reachable s ->
  (stepEventId s <> 0%N <-> activeSteppers s = 1%nat) /\
  (stepEventId s = 0%N <-> activeSteppers s = 0%nat) /\
  (flushEventId s <> 0%N <-> (1 <= activeRedrawChains s)%nat).
Proof.
  intros R. destruct (reachable_consistent s R) as [C1 C2].
  unfold activeSteppers, activeRedrawChains.
  split; [|split].
  - destruct C1 as [[E ->] | [E ->]]; simpl; split; intros; congruence.
  - destruct C1 as [[E ->] | [E ->]]; simpl; split; intros; congruence.
  - destruct (flushEventId s =? 0)%N eqn:E.
    + apply N.eqb_eq in E. split; [congruence | lia].
    + apply N.eqb_neq in E. split; [|auto].
      intros _. specialize (C2 E). destruct (frames s); [congruence|].
      simpl; lia.
Qed.

(** On every reachable state two starts in a row leave exactly one
    stepper timer, and at least one redraw chain; exactly one when no
    [render] was pending before. *)
Lemma startStep_twice_reachable s :
  reachable s ->
  activeSteppers (startStep (startStep s)) = 1%nat /\
  (1 <= activeRedrawChains (startStep (startStep s)))%nat /\
  (frames s = [] ->
   activeRedrawChains (startStep (startStep s)) = 1%nat).
Proof.
  intros R. rewrite startStep_idempotent.
  pose proof (reachable_consistent _ (r_start _ R)) as [C1 C2].
  destruct (startStep_handles s) as [H1 H2].
  unfold activeSteppers, activeRedrawChains.
  apply N.eqb_neq in H2 as H2'. rewrite H2'.
  split; [|split].
  - destruct C1 as [[? _] | [_ ->]]; [congruence | reflexivity].
  - specialize (C2 H2). destruct (frames (startStep s)); [congruence|].
    simpl; lia.
  - intros Hf. pose proof (reachable_consistent _ R) as [_ D2].
    assert (F0 : flushEventId s = 0%N).
    { destruct (N.eq_dec (flushEventId s) 0); [assumption|].
      now apply D2 in n. }
    unfold startStep.
    destruct (stepEventId s =? 0)%N; simpl; rewrite F0; simpl;
      now rewrite Hf.
Qed.

End SchedulerFacts.

(** C1 at the failing input: [startStep] is called twice while the
    [render] requested by [init] is still pending.  The second call
    changes nothing and one stepper timer runs, but two [render]
    callbacks are pending with a non-zero redraw handle, each of them
    re-requests itself, and so two redraw chains run at every later
    refresh.  The same happens when playback is paused and resumed
    between two refreshes: the handle kept by [startStep] is stale once
    [render] has re-requested itself, so [stopStep] cancels nothing. *)
Theorem startStep_twice_redraw_chains :
  Scheduler.reachable (Scheduler.startStep (Scheduler.startStep Scheduler.init)) /\
  Scheduler.startStep (Scheduler.startStep Scheduler.init)
    = Scheduler.mkSched 1 2 [1%N] [1%N; 2%N] 1 2 /\
  Scheduler.activeSteppers
    (Scheduler.startStep (Scheduler.startStep Scheduler.init)) = 1%nat /\
  (forall n,
     Scheduler.activeRedrawChains
       (Nat.iter n Scheduler.animationFrame
          (Scheduler.startStep (Scheduler.startStep Scheduler.init))) = 2%nat) /\
  Scheduler.stopStep
    (Scheduler.animationFrame
       (Scheduler.startStep (Scheduler.animationFrame Scheduler.init)))
    = Scheduler.mkSched 0 0 [] [3%N] 1 3 /\
  (forall n,
     Scheduler.activeRedrawChains
       (Nat.iter n Scheduler.animationFrame
          (Scheduler.startStep (Scheduler.startStep
             (Scheduler.stopStep
                (Scheduler.animationFrame
                   (Scheduler.startStep
                      (Scheduler.animationFrame Scheduler.init))))))) = 2%nat).
Proof.
  split; [repeat constructor|].
  split; [reflexivity|]. split; [reflexivity|].
  split; [intros n; now rewrite animationFrames_chains|].
  split; [reflexivity|].
  intros n; now rewrite animationFrames_chains.
Qed.

(** ** Spectrum geometry *)

Lemma initCanvasSize_height w : height (size (initCanvasSize w)) = w * 9 / 16.
Proof. unfold initCanvasSize, ASPECT_RATIO. cbn [height size]. field. Qed.

(** Counterexample to C7 as stated: on a 1600 pixel wide container the
    canvas is 900 high and the radius scale is 157.5/256, not
    157.5/255. *)
Lemma radius_scale_counterexample :
  radius (freqMultiplyRate (initCanvasSize 1600)) = 157.5 / 256 /\
  spec_radiusScale (size (initCanvasSize 1600)) = 157.5 / 255 /\
  radius (freqMultiplyRate (initCanvasSize 1600))
    <> spec_radiusScale (size (initCanvasSize 1600)).
Proof.
  assert (H1 : radius (freqMultiplyRate (initCanvasSize 1600)) = 157.5 / 256).
  { pose proof (initCanvasSize_height 1600) as Hh.
    unfold initCanvasSize in *. cbn [radius freqMultiplyRate height size] in *.
    rewrite Hh. unfold RADIUS_LIMIT.max, RADIUS_LIMIT.min. lra. }
  assert (H2 : spec_radiusScale (size (initCanvasSize 1600)) = 157.5 / 255).
  { unfold spec_radiusScale. rewrite initCanvasSize_height.
    unfold RADIUS_LIMIT.max, RADIUS_LIMIT.min. lra. }
  split; [exact H1|]. split; [exact H2|]. rewrite H1, H2. lra.
Qed.

(** C7, amended: the radius scale that [initCanvasSize] recomputes on
    every geometry change is [(radiusMax - radiusMin) / 256], where
    [radiusMax] and [radiusMin] are 3/8 and 1/5 of the canvas height;
    [render] draws one stroke for each of the 128 lower bins, and the
    stroke of bin [i] runs from radius [radiusMin] to radius
    [magnitude[i] * radiusScale * volumeFactor + radiusMin] at the bin's
    angle, with [volumeFactor = volume * 0.5 + 0.5]. *)
Theorem radius_scale (w angleOffset vol : R) (dataArray : list Z) (i : nat)
    (Hi : (i < 128)%nat) :
  let g := initCanvasSize w in
  let radiusMax := height (size g) * RADIUS_LIMIT.max in
  let radiusMin := height (size g) * RADIUS_LIMIT.min in
  let radiusScale := radius (freqMultiplyRate g) in
  let angle := freqAngle (freqMultiplyRate g) angleOffset i in
  radiusScale = (radiusMax - radiusMin) / 256 /\
  radiusMax = height (size g) * (3 / 8) /\
  radiusMin = height (size g) * (1 / 5) /\
  List.length
    (renderFrequency (size g) (freqMultiplyRate g) angleOffset vol dataArray)
    = 128%nat /\
  nth_error
    (renderFrequency (size g) (freqMultiplyRate g) angleOffset vol dataArray) i
    = Some
        (convertPolarToCartesian_centre (size g) radiusMin angle,
         convertPolarToCartesian_centre (size g)
           (IZR (nth i dataArray 0%Z) * radiusScale * (vol * 0.5 + 0.5)
              + radiusMin) angle).
Proof.
  intros g radiusMax radiusMin radiusScale angle.
  split; [|split; [reflexivity | split; [reflexivity|split]]].
  - unfold radiusScale, radiusMax, radiusMin, g, initCanvasSize.
    cbn [radius freqMultiplyRate height size]. lra.
  - unfold renderFrequency. now rewrite length_map, length_seq.
  - unfold renderFrequency.
    rewrite nth_error_map.
    replace (nth_error (seq 0 (Nat.shiftr FREQ_BIN_COUNT 1)) i) with (Some i).
    + reflexivity.
    + symmetry. change (Nat.shiftr FREQ_BIN_COUNT 1) with 128%nat.
      rewrite nth_error_nth' with (d := 0%nat) by (rewrite length_seq; lia).
      now rewrite seq_nth.
Qed.

Lemma radius_scale_witness :
  (5 < 128)%nat /\
  radius (freqMultiplyRate (initCanvasSize 1600))
    = (height (size (initCanvasSize 1600)) * RADIUS_LIMIT.max
       - height (size (initCanvasSize 1600)) * RADIUS_LIMIT.min) / 256.
Proof.
  assert (H : (5 < 128)%nat) by lia.
  split; [exact H|].
  exact (proj1 (radius_scale 1600 0 (8 / 10) [] 5 H)).
Defined.

(** ** Particle field *)

Lemma iter_stepFragment k f :
  positionRadius (Nat.iter k stepFragment f)
    = positionRadius f + INR k * stepRadius f /\
  stepRadius (Nat.iter k stepFragment f) = stepRadius f /\
  selfRadius (Nat.iter k stepFragment f) = selfRadius f.
Proof.
  induction k as [|k (IH1 & IH2 & IH3)].
  - simpl. repeat split; lra.
  - rewrite S_INR. simpl Nat.iter.
    set (g := Nat.iter k stepFragment f) in *.
    unfold stepFragment. cbn [positionRadius stepRadius selfRadius].
    rewrite IH1, IH2, IH3. repeat split; lra.
Qed.

Lemma iter_tick_fragments k s :
  fragmentsArray (Nat.iter k tick s)
    = map (Nat.iter k stepFragment) (fragmentsArray s).
Proof.
  induction k as [|k IH]; simpl.
  - now rewrite map_id.
  - rewrite IH, map_map. reflexivity.
Qed.

Lemma initFragmentsSize_ok c :
  0 <= width c -> 0 <= height c ->
  0 <= FragmentSize.minSelfRadius (initFragmentsSize c)
    <= FragmentSize.maxSelfRadius (initFragmentsSize c) /\
  0 <= FragmentSize.stepRadius (initFragmentsSize c).
Proof.
  intros Hw Hh. unfold initFragmentsSize, FRAGMENTS_SETTINGS.minRadius,
    FRAGMENTS_SETTINGS.maxRadius, FRAGMENTS_SETTINGS.stepRadius.
  cbn [FragmentSize.minSelfRadius FragmentSize.maxSelfRadius
       FragmentSize.stepRadius].
  lra.
Qed.

Lemma initCanvasSize_ok w :
  0 <= w ->
  0 <= width (size (initCanvasSize w)) /\ 0 <= height (size (initCanvasSize w)).
Proof.
  intros Hw. rewrite initCanvasSize_height. unfold initCanvasSize.
  cbn [width size]. lra.
Qed.

Section ParticleFacts.

Variable random : nat -> R.
Hypothesis random_range : forall k, 0 <= random k < 1.

Lemma newFragment_ok c k :
  0 <= width c -> 0 <= height c ->
  fragment_ok (newFragment random (initFragmentsSize c) k).
Proof.
  intros Hw Hh. destruct (initFragmentsSize_ok c Hw Hh) as [[H1 H2] H3].
  pose proof (random_range k). pose proof (random_range (k + 4)).
  unfold fragment_ok, newFragment. cbn [stepRadius selfRadius]. split.
  - apply Rmult_le_pos; lra.
  - assert (0 <= random k * (FragmentSize.maxSelfRadius (initFragmentsSize c)
                 - FragmentSize.minSelfRadius (initFragmentsSize c)))
      by (apply Rmult_le_pos; lra).
    lra.
Qed.

Lemma recycledFragment_ok c k :
  0 <= width c -> 0 <= height c ->
  fragment_ok (recycledFragment random (initFragmentsSize c) k).
Proof.
  intros Hw Hh. destruct (initFragmentsSize_ok c Hw Hh) as [[H1 H2] H3].
  pose proof (random_range k). pose proof (random_range (k + 3)).
  unfold fragment_ok, recycledFragment. cbn [stepRadius selfRadius]. split.
  - apply Rmult_le_pos; lra.
  - assert (0 <= random k * (FragmentSize.maxSelfRadius (initFragmentsSize c)
                 - FragmentSize.minSelfRadius (initFragmentsSize c)))
      by (apply Rmult_le_pos; lra).
    lra.
Qed.

Lemma initFragmentsLoop_Forall (P : FragmentProps -> Prop) c fs n k :
  (forall j, P (newFragment random fs j)) ->
  Forall P (fst (fst (initFragmentsLoop random c fs n k))) /\
  List.length (fst (fst (initFragmentsLoop random c fs n k))) = n.
Proof.
  intros HP. revert k. induction n as [|n IH]; intros k; simpl.
  - split; [constructor | reflexivity].
  - specialize (IH (k + 6)%nat).
    destruct (initFragmentsLoop random c fs n (k + 6)) as [[fr lg] k'].
    simpl in *. destruct IH. split; [constructor; auto | congruence].
Qed.

Lemma renderFragments_Forall (P : FragmentProps -> Prop) c fs l k :
  (forall j, P (recycledFragment random fs j)) ->
  Forall P l ->
  Forall P (fst (fst (renderFragments random c fs l k))).
Proof.
  intros HP H. revert k. induction H as [|f l Hf Hl IH]; intros k; simpl.
  - constructor.
  - destruct (fst (drawFragment c f)).
    + specialize (IH k).
      destruct (renderFragments random c fs l k) as [[fr lg] k'].
      simpl in *. constructor; auto.
    + specialize (IH (k + 5)%nat).
      destruct (renderFragments random c fs l (k + 5)) as [[fr lg] k'].
      simpl in *. constructor; auto.
Qed.

(** The pass slot by slot: what it draws is what the fragments it
    leaves in the array draw; a slot whose fragment is on the canvas
    keeps it, any other slot holds a replacement. *)
Lemma renderFragments_slots c fs l k :
  snd (fst (renderFragments random c fs l k))
    = flat_map (fun f => snd (drawFragment c f))
        (fst (fst (renderFragments random c fs l k))) /\
  List.length (fst (fst (renderFragments random c fs l k))) = List.length l /\
  forall i f, nth_error l i = Some f ->
    (fst (drawFragment c f) = true ->
       nth_error (fst (fst (renderFragments random c fs l k))) i = Some f) /\
    (fst (drawFragment c f) = false ->
       exists j, nth_error (fst (fst (renderFragments random c fs l k))) i
                   = Some (recycledFragment random fs j)).
Proof.
  revert k. induction l as [|f l IH]; intros k.
  - simpl. repeat split; auto; destruct i; discriminate.
  - simpl. destruct (fst (drawFragment c f)) eqn:E.
    + specialize (IH k).
      destruct (renderFragments random c fs l k) as [[fr lg] k'].
      simpl in *. destruct IH as (I1 & I2 & I3).
      split; [now rewrite I1|]. split; [now rewrite I2|].
      intros [|i] g Hg; simpl in *.
      * injection Hg as <-. split; [auto | congruence].
      * now apply I3.
    + specialize (IH (k + 5)%nat).
      destruct (renderFragments random c fs l (k + 5)) as [[fr lg] k'].
      simpl in *. destruct IH as (I1 & I2 & I3).
      split; [now rewrite I1|]. split; [now rewrite I2|].
      intros [|i] g Hg; simpl in *.
      * injection Hg as <-. split; [congruence | eauto].
      * now apply I3.
Qed.

Lemma reachable_invariant s :
  scene_reachable random s -> scene_invariant s.
Proof.
  unfold scene_invariant.
  induction 1 as [w Hw | s R IH | w s Hw R IH | s R IH].
  - destruct (initCanvasSize_ok w Hw) as [Cw Ch].
    unfold initScene.
    pose proof (initFragmentsLoop_Forall fragment_ok
      (size (initCanvasSize w)) (initFragmentsSize (size (initCanvasSize w)))
      FRAGMENTS_SETTINGS.count 0
      (fun j => newFragment_ok _ j Cw Ch)) as [HF _].
    destruct (initFragmentsLoop random _ _ _ _) as [[fr lg] k'].
    cbn [sceneCanvas fragmentSize fragmentsArray]. simpl in HF. auto.
  - destruct IH as (I1 & I2 & I3 & I4).
    unfold tick. cbn [sceneCanvas fragmentSize fragmentsArray].
    repeat split; auto.
    apply Forall_map. eapply Forall_impl; [|exact I4].
    intros f [F1 F2]. unfold fragment_ok, stepFragment.
    cbn [stepRadius selfRadius]. auto.
  - destruct IH as (I1 & I2 & I3 & I4).
    unfold resize. destruct (truthy (Fin w)); [|auto].
    destruct (initCanvasSize_ok w Hw) as [Cw Ch].
    cbn [sceneCanvas fragmentSize fragmentsArray]. auto.
  - destruct IH as (I1 & I2 & I3 & I4).
    unfold renderScene.
    pose proof (renderFragments_Forall fragment_ok (sceneCanvas s)
      (fragmentSize s) (fragmentsArray s) (randomCalls s)) as HF.
    destruct (renderFragments random _ _ _ _) as [[fr lg] k'].
    cbn [fst sceneCanvas fragmentSize fragmentsArray] in *.
    repeat split; auto. apply HF; [|assumption].
    intros j. rewrite I3. now apply recycledFragment_ok.
Qed.

End ParticleFacts.

Lemma Forall2_map_same {A B : Type} (P : B -> B -> Prop) (g h : A -> B) l :
  Forall (fun a => P (g a) (h a)) l -> Forall2 P (map g l) (map h l).
Proof. induction 1; simpl; constructor; auto. Qed.

(** C4: on every scene the component can show, each fragment's
    [positionRadius] after [m] runs of the stepper callback is at least
    what it was after [n <= m] runs, namely larger by [m - n] times its
    [stepRadius]; the callback adds [stepRadius] to [positionRadius],
    and [stepRadius] is non-negative for every fragment in the array and
    for every fragment that [initFragments] or the recycling in [render]
    can create. *)
Theorem positionRadius_nondecreasing
    (random : nat -> R) (random_range : forall k, 0 <= random k < 1)
    (s : scene) (Hs : scene_reachable random s)
    (n m : nat) (Hnm : (n <= m)%nat) :
  Forall2
    (fun f f' =>
       positionRadius f <= positionRadius f' /\
       0 <= stepRadius f /\
       positionRadius f' = positionRadius f + INR (m - n) * stepRadius f)
    (fragmentsArray (Nat.iter n tick s))
    (fragmentsArray (Nat.iter m tick s)) /\
  fragmentsArray (tick s) = map stepFragment (fragmentsArray s) /\
  (forall f, positionRadius (stepFragment f)
               = positionRadius f + stepRadius f) /\
  (forall k,
     0 <= stepRadius (newFragment random (fragmentSize s) k) /\
     0 <= stepRadius (recycledFragment random (fragmentSize s) k)).
Proof.
  destruct (reachable_invariant random random_range s Hs) as (Iw & Ih & Ifs & IF).
  split; [|split; [reflexivity | split; [reflexivity|]]].
  - rewrite !iter_tick_fragments. apply Forall2_map_same.
    eapply Forall_impl; [|exact IF].
    intros f [F1 _].
    destruct (iter_stepFragment n f) as (Pn & Sn & _).
    destruct (iter_stepFragment m f) as (Pm & _ & _).
    rewrite Pn, Pm, Sn, minus_INR by assumption.
    assert (0 <= (INR m - INR n) * stepRadius f).
    { apply Rmult_le_pos; [|assumption]. apply le_INR in Hnm. lra. }
    repeat split; lra.
  - intros k. rewrite Ifs. split.
    + apply (newFragment_ok random random_range); assumption.
    + apply (recycledFragment_ok random random_range); assumption.
Qed.

Lemma zeroRandom_range : forall k, 0 <= zeroRandom k < 1.
Proof. intros k. unfold zeroRandom. lra. Qed.

Lemma wideScene_reachable : scene_reachable zeroRandom wideScene.
Proof. apply sr_init. lra. Qed.

Lemma shrunkScene_reachable : scene_reachable zeroRandom shrunkScene.
Proof. apply sr_resize; [lra | apply wideScene_reachable]. Qed.

Lemma positionRadius_nondecreasing_witness :
  (forall k, 0 <= zeroRandom k < 1) /\
  scene_reachable zeroRandom wideScene /\
  (2 <= 5)%nat /\
  Forall2
    (fun f f' =>
       positionRadius f <= positionRadius f' /\
       0 <= stepRadius f /\
       positionRadius f' = positionRadius f + INR (5 - 2) * stepRadius f)
    (fragmentsArray (Nat.iter 2 tick wideScene))
    (fragmentsArray (Nat.iter 5 tick wideScene)).
Proof.
  assert (H : (2 <= 5)%nat) by lia.
  split; [exact zeroRandom_range|].
  split; [exact wideScene_reachable|].
  split; [exact H|].
  exact (proj1 (positionRadius_nondecreasing zeroRandom zeroRandom_range
                  wideScene wideScene_reachable 2 5 H)).
Defined.

(** [drawFragment] refuses a fragment exactly when its bounding square
    misses the canvas. *)
Lemma drawFragment_outside c f :
  0 <= width c -> 0 <= height c -> 0 <= selfRadius f ->
  (fully_outside c f <-> drawFragment c f = (false, [])).
Proof.
  intros Hw Hh Hr. unfold fully_outside, drawFragment.
  set (center := convertPolarToCartesian_centre c (positionRadius f)
                   (positionAngle f)).
  cbv zeta. split.
  - intros Hout.
    destruct (Rltb (x center + selfRadius f) 0) eqn:E1; [reflexivity|].
    destruct (Rltb (width c) (x center - selfRadius f)) eqn:E2; [reflexivity|].
    destruct (Rltb (y center + selfRadius f) 0) eqn:E3; [reflexivity|].
    destruct (Rltb (height c) (y center - selfRadius f)) eqn:E4; [reflexivity|].
    apply Rltb_false in E1, E2, E3, E4. exfalso.
    apply (Hout (Rmax (x center - selfRadius f) 0)
                (Rmax (y center - selfRadius f) 0)).
    + unfold Rmax; destruct (Rle_dec _ _); lra.
    + unfold Rmax; destruct (Rle_dec _ _); lra.
    + unfold Rmax; repeat destruct (Rle_dec _ _); lra.
  - intros Hd px py Hx Hy [Bx By].
    destruct (Rltb (x center + selfRadius f) 0) eqn:E1;
      [apply Rltb_true in E1; lra|].
    destruct (Rltb (width c) (x center - selfRadius f)) eqn:E2;
      [apply Rltb_true in E2; lra|].
    destruct (Rltb (y center + selfRadius f) 0) eqn:E3;
      [apply Rltb_true in E3; lra|].
    destruct (Rltb (height c) (y center - selfRadius f)) eqn:E4;
      [apply Rltb_true in E4; lra|].
    simpl in Hd. discriminate.
Qed.

(** C3: on every scene the component can show, a fragment whose bounding
    square lies fully outside the canvas rectangle is not drawn by
    [render]: [drawFragment] refuses it, its slot receives a freshly
    built fragment whose [positionRadius] is [minPositionRadius] minus
    its own [selfRadius], and everything the pass draws is drawn for a
    fragment that is in the array after the pass. *)
Theorem off_canvas_fragment_recycled
    (random : nat -> R) (random_range : forall k, 0 <= random k < 1)
    (s : scene) (Hs : scene_reachable random s)
    (i : nat) (f : FragmentProps)
    (Hf : nth_error (fragmentsArray s) i = Some f)
    (Hout : fully_outside (sceneCanvas s) f) :
  drawFragment (sceneCanvas s) f = (false, []) /\
  (exists k,
     nth_error (fragmentsArray (fst (renderScene random s))) i
       = Some (recycledFragment random (fragmentSize s) k) /\
     positionRadius (recycledFragment random (fragmentSize s) k)
       = FragmentSize.minPositionRadius (fragmentSize s)
         - selfRadius (recycledFragment random (fragmentSize s) k) /\
     FragmentSize.minSelfRadius (fragmentSize s)
       <= selfRadius (recycledFragment random (fragmentSize s) k)
       <= FragmentSize.maxSelfRadius (fragmentSize s)) /\
  snd (renderScene random s)
    = flat_map (fun g => snd (drawFragment (sceneCanvas s) g))
        (fragmentsArray (fst (renderScene random s))).
Proof.
  destruct (reachable_invariant random random_range s Hs) as (Iw & Ih & Ifs & IF).
  assert (Fok : fragment_ok f).
  { rewrite Forall_forall in IF. apply IF. eapply nth_error_In; eauto. }
  destruct Fok as [_ Fr].
  pose proof (proj1 (drawFragment_outside _ f Iw Ih Fr) Hout) as Hd.
  destruct (renderFragments_slots random (sceneCanvas s) (fragmentSize s)
              (fragmentsArray s) (randomCalls s)) as (S1 & S2 & S3).
  unfold renderScene.
  destruct (renderFragments random _ _ _ _) as [[fr lg] k'].
  cbn [fst snd fragmentsArray] in *.
  split; [exact Hd|]. split; [|exact S1].
  destruct (S3 i f Hf) as [_ S4].
  destruct S4 as [k Hk]; [now rewrite Hd|].
  exists k. split; [exact Hk|]. split; [reflexivity|].
  unfold recycledFragment. cbn [selfRadius].
  destruct (initFragmentsSize_ok _ Iw Ih) as [[H1 H2] _].
  rewrite <- Ifs in H1, H2. pose proof (random_range k) as Hk'.
  assert (0 <= random k * (FragmentSize.maxSelfRadius (fragmentSize s)
                           - FragmentSize.minSelfRadius (fragmentSize s)))
    by (apply Rmult_le_pos; lra).
  assert (random k * (FragmentSize.maxSelfRadius (fragmentSize s)
                      - FragmentSize.minSelfRadius (fragmentSize s))
          <= 1 * (FragmentSize.maxSelfRadius (fragmentSize s)
                  - FragmentSize.minSelfRadius (fragmentSize s)))
    by (apply Rmult_le_compat_r; lra).
  lra.
Qed.

Lemma initFragmentsLoop_head random c fs n k :
  fst (fst (initFragmentsLoop random c fs (S n) k))
    = newFragment random fs k
        :: fst (fst (initFragmentsLoop random c fs n (k + 6))).
Proof.
  simpl. destruct (initFragmentsLoop random c fs n (k + 6)) as [[fr lg] k'].
  reflexivity.
Qed.

Lemma initScene_fragments random w :
  fragmentsArray (initScene random w)
    = fst (fst (initFragmentsLoop random (size (initCanvasSize w))
                  (initFragmentsSize (size (initCanvasSize w)))
                  FRAGMENTS_SETTINGS.count 0)).
Proof.
  unfold initScene. cbv zeta.
  destruct (initFragmentsLoop random _ _ _ _) as [[fr lg] k'].
  reflexivity.
Qed.

Lemma initScene_first random w :
  nth_error (fragmentsArray (initScene random w)) 0
    = Some (newFragment random
              (initFragmentsSize (size (initCanvasSize w))) 0).
Proof.
  rewrite initScene_fragments.
  change FRAGMENTS_SETTINGS.count with (S 255).
  now rewrite initFragmentsLoop_head.
Qed.

Lemma shrunkScene_canvas :
  sceneCanvas shrunkScene = size (initCanvasSize 16) /\
  fragmentsArray shrunkScene = fragmentsArray wideScene /\
  fragmentSize shrunkScene = initFragmentsSize (size (initCanvasSize 16)).
Proof.
  unfold shrunkScene, resize.
  replace (truthy (Fin 16)) with true; [repeat split|].
  symmetry. simpl. apply negb_true_iff, Reqb_false. lra.
Qed.

Lemma shrunkScene_first :
  nth_error (fragmentsArray shrunkScene) 0
    = Some (newFragment zeroRandom
              (initFragmentsSize (size (initCanvasSize 1600))) 0).
Proof.
  destruct shrunkScene_canvas as (_ & -> & _). apply initScene_first.
Qed.

(** The first fragment of the wide scene sits 180 pixels above the
    centre; on the shrunk canvas, 9 pixels high, that is off the top. *)
Lemma shrunkScene_first_outside :
  fully_outside (sceneCanvas shrunkScene)
    (newFragment zeroRandom (initFragmentsSize (size (initCanvasSize 1600))) 0).
Proof.
  destruct shrunkScene_canvas as (-> & _ & _).
  unfold fully_outside, convertPolarToCartesian_centre, convertPolarToCartesian.
  cbv zeta. cbn [x y].
  pose proof (initCanvasSize_height 16) as H16.
  pose proof (initCanvasSize_height 1600) as H1600.
  unfold newFragment, zeroRandom, initFragmentsSize.
  cbn [selfRadius positionRadius positionAngle
       FragmentSize.minSelfRadius FragmentSize.maxSelfRadius
       FragmentSize.minPositionRadius FragmentSize.maxPositionRadius].
  rewrite H16, H1600.
  unfold RADIUS_LIMIT.min, FRAGMENTS_SETTINGS.minRadius,
    FRAGMENTS_SETTINGS.maxRadius.
  replace ((0 * 360 - 90) * (PI / 180)) with (- (PI / 2)) by lra.
  rewrite sin_neg, sin_PI2.
  intros px py _ Hy [_ By]. lra.
Qed.

Lemma off_canvas_fragment_recycled_witness :
  (forall k, 0 <= zeroRandom k < 1) /\
  scene_reachable zeroRandom shrunkScene /\
  nth_error (fragmentsArray shrunkScene) 0
    = Some (newFragment zeroRandom
              (initFragmentsSize (size (initCanvasSize 1600))) 0) /\
  fully_outside (sceneCanvas shrunkScene)
    (newFragment zeroRandom (initFragmentsSize (size (initCanvasSize 1600))) 0) /\
  drawFragment (sceneCanvas shrunkScene)
    (newFragment zeroRandom (initFragmentsSize (size (initCanvasSize 1600))) 0)
    = (false, []).
Proof.
  split; [exact zeroRandom_range|].
  split; [exact shrunkScene_reachable|].
  split; [exact shrunkScene_first|].
  split; [exact shrunkScene_first_outside|].
  exact (proj1 (off_canvas_fragment_recycled zeroRandom zeroRandom_range
                  shrunkScene shrunkScene_reachable 0 _
                  shrunkScene_first shrunkScene_first_outside)).
Defined.

(** ** Palette adapter *)

(** Three iterations are enough: the loop condition is false on the
    result, whatever the extractor returned. *)
Lemma ensure3_exit (palette : list (option rgb)) :
  (List.length (ensure3 palette) <? 3)%nat = false.
Proof.
  unfold ensure3.
  destruct palette as [|a [|b [|c l]]]; reflexivity.
Qed.

(** Padding repeats the first entry and keeps what was there. *)
Lemma ensure3_nonempty (a : option rgb) (l : list (option rgb)) :
  ensure3 (a :: l) =
    match l with
    | [] => [a; a; a]
    | [b] => [a; b; a]
    | _ => a :: l
    end.
Proof. unfold ensure3. destruct l as [|b [|c l]]; reflexivity. Qed.

(** More fuel changes nothing. *)
Lemma ensure3_loop_fuel (n : nat) (palette : list (option rgb)) :
  ensure3_loop (3 + n) palette = ensure3 palette.
Proof.
  unfold ensure3.
  destruct palette as [|a [|b [|c l]]]; simpl; destruct n; reflexivity.
Qed.

(** Whenever the extractor returns at least one colour, [getCoverColor]
    completes; on an empty palette it throws. *)
Lemma getCoverColor_completes
    (rgbToHsl : R -> R -> R -> R * R * R) (hslToRgb : R -> R -> R -> rgb)
    (palette : list rgb) (old : coverResult) :
  completed (getCoverColor rgbToHsl hslToRgb palette old)
    = negb (List.length palette =? 0)%nat.
Proof. destruct palette as [|a [|b [|c l]]]; reflexivity. Qed.

(** C8: for a palette of one colour the padding loop yields that colour
    three times, so entry 2 is defined, and [getCoverColor] completes
    with all three role colours derived from it: the background from the
    darkened colour, the spectrum and the fragments from the lightened
    one, the fragments at opacity 0.4. *)
Theorem single_colour_palette
    (rgbToHsl : R -> R -> R -> R * R * R) (hslToRgb : R -> R -> R -> rgb)
    (c : rgb) (old : coverResult) :
  ensure3 [Some c] = [Some c; Some c; Some c] /\
  nth_error (ensure3 [Some c]) 2 = Some (Some c) /\
  (List.length (ensure3 [Some c]) <? 3)%nat = false /\
  exists r,
    getCoverColor rgbToHsl hslToRgb [c] old = Done r /\
    colors r =
      mkColors (RgbColor (changeColor rgbToHsl hslToRgb c true))
               (RgbColor (changeColor rgbToHsl hslToRgb c false))
               (RgbaColor (changeColor rgbToHsl hslToRgb c false) 0.4) /\
    strokeStyle r = freq (colors r) /\
    wrapperBackground r = bg (colors r).
Proof.
  split; [reflexivity|]. split; [reflexivity|]. split; [reflexivity|].
  eexists. split; [reflexivity|]. repeat split.
Qed.

(** ** The array keeps its size

    The loops of the component run over the indices below
    [FRAGMENTS_SETTINGS.count]; the passes above run over the list.  The
    two agree because the array has exactly that many slots in every
    scene. *)
Lemma reachable_count (random : nat -> R) (s : scene) :
  scene_reachable random s ->
  List.length (fragmentsArray s) = FRAGMENTS_SETTINGS.count.
Proof.
  induction 1 as [w Hw | s R IH | w s Hw R IH | s R IH].
  - rewrite initScene_fragments.
    apply (initFragmentsLoop_Forall random (fun _ => True)). auto.
  - unfold tick. cbn [fragmentsArray]. now rewrite length_map.
  - unfold resize. now destruct (truthy (Fin w)).
  - unfold renderScene.
    destruct (renderFragments_slots random (sceneCanvas s) (fragmentSize s)
                (fragmentsArray s) (randomCalls s)) as (_ & L & _).
    destruct (renderFragments random _ _ _ _) as [[fr lg] k'].
    cbn [fst fragmentsArray] in *. congruence.
Qed.

(* ================================================================= *)
(** * Further properties of the component *)

(** ** Clock text *)

(** X1: for every number of seconds from 0 up to 2^53, whole or not,
    the clock text is the zero-padded whole minutes, a colon, and the
    zero-padded whole seconds of the minute; rounding the seconds down
    first gives the same text.  Below the bound the minutes are a whole
    number that a double holds exactly and that is printed as a plain
    decimal. *)
Theorem parseSecondsToTime_clock (t : R) (Ht : 0 <= t)
    (Hb : t < 9007199254740992) :
  parseSecondsToTime (Fin t) =
    ((if (Zfloor t / 60 <? 10)%Z then "0" else "")
       ++ string_of_Z (Zfloor t / 60) ++ ":" ++
     (if (Zfloor t mod 60 <? 10)%Z then "0" else "")
       ++ string_of_Z (Zfloor t mod 60))%string /\
  parseSecondsToTime (floor (Fin t)) = parseSecondsToTime (Fin t).
Proof. exact (parseSecondsToTime_real t Ht). Qed.

Lemma parseSecondsToTime_clock_witness :
  0 <= 75.5 /\ 75.5 < 9007199254740992 /\
  parseSecondsToTime (Fin 75.5) = "01:15"%string.
Proof.
  assert (H : 0 <= 75.5) by lra.
  assert (Hb : 75.5 < 9007199254740992) by lra.
  split; [exact H|]. split; [exact Hb|].
  rewrite (proj1 (parseSecondsToTime_clock 75.5 H Hb)).
  replace (Zfloor 75.5) with 75%Z by (symmetry; apply Zfloor_eq; lra).
  reflexivity.
Defined.

(** ** Seeking with a known duration *)

Lemma setProgress_fields (p : player) (time : jsnum) (d : R)
    (Hd : duration (aud p) = Fin d) (Hd0 : 0 <= d) (Hn : time <> NaN) :
  exists p', setProgress p time = Done p' /\
    0 <= currentTime (aud p') <= d /\
    (forall t, time = Fin t -> 0 <= t <= d -> currentTime (aud p') = t) /\
    (lt time (Fin 0) = true -> currentTime (aud p') = 0) /\
    (gt time (Fin d) = true -> currentTime (aud p') = d) /\
    duration (aud p') = Fin d /\ volume (aud p') = volume (aud p) /\
    muted (aud p') = muted (aud p) /\ isMuted p' = isMuted p.
Proof.
  destruct (setProgress_clamps p time d Hd Hd0 Hn) as (p' & E & B & C).
  exists p'. split; [exact E|]. split; [exact B|].
  assert (F : duration (aud p') = Fin d /\ volume (aud p') = volume (aud p) /\
              muted (aud p') = muted (aud p) /\ isMuted p' = isMuted p).
  { unfold setProgress in E.
    destruct (set_currentTime (aud p) (clampTime (aud p) time)) as [a|e a] eqn:S;
      [|discriminate].
    injection E as <-. unfold set_currentTime in S.
    destruct (clampTime (aud p) time); try discriminate.
    injection S as <-. simpl. auto. }
  unfold clampTime, gt in C. rewrite Hd in C.
  split; [|split; [|split; [|exact F]]].
  - intros t -> Ht. simpl in C.
    replace (Rltb t 0) with false in C by (symmetry; apply Rltb_false; lra).
    replace (Rltb d t) with false in C by (symmetry; apply Rltb_false; lra).
    now apply Fin_inj in C.
  - intros H. rewrite H in C. now apply Fin_inj in C.
  - intros H. unfold gt in H. rewrite H in C.
    destruct (lt time (Fin 0)) eqn:E0; apply Fin_inj in C; [|assumption].
    destruct time as [| [|] | t]; simpl in *; try discriminate.
    apply Rltb_true in H, E0. lra.
Qed.

(** X2: with a known, non-negative duration [setProgress] completes on
    every number except [NaN]; the new position lies in [0, duration]:
    it is the requested time when that is in range, 0 when it is
    negative and the duration when it is beyond; duration, volume and
    mute state are untouched. *)
Theorem setProgress_known_duration (p : player) (time : jsnum) (d : R)
    (Hd : duration (aud p) = Fin d) (Hd0 : 0 <= d) (Hn : time <> NaN) :
  exists p', setProgress p time = Done p' /\
    0 <= currentTime (aud p') <= d /\
    (forall t, time = Fin t -> 0 <= t <= d -> currentTime (aud p') = t) /\
    (lt time (Fin 0) = true -> currentTime (aud p') = 0) /\
    (gt time (Fin d) = true -> currentTime (aud p') = d) /\
    duration (aud p') = Fin d /\ volume (aud p') = volume (aud p) /\
    muted (aud p') = muted (aud p) /\ isMuted p' = isMuted p.
Proof. exact (setProgress_fields p time d Hd Hd0 Hn). Qed.

Lemma setProgress_known_duration_witness :
  duration (mkAudio 0 (Fin 120) (8 / 10) false) = Fin 120 /\ 0 <= 120 /\
  Inf false <> NaN /\
  exists p',
    setProgress
      (mkPlayer (mkAudio 0 (Fin 120) (8 / 10) false) false false
         (mkCanvas 1600 900) "00:00" (Fin 0) (Fin 0) (Fin 80)) (Inf false)
      = Done p' /\
    0 <= currentTime (aud p') <= 120.
Proof.
  assert (H0 : 0 <= 120) by lra.
  assert (Hn : Inf false <> NaN) by discriminate.
  split; [reflexivity|]. split; [exact H0|]. split; [exact Hn|].
  destruct (setProgress_known_duration
      (mkPlayer (mkAudio 0 (Fin 120) (8 / 10) false) false false
         (mkCanvas 1600 900) "00:00" (Fin 0) (Fin 0) (Fin 80))
      (Inf false) 120 eq_refl H0 Hn) as (p' & E & B & _).
  exists p'. split; [exact E | exact B].
Defined.

(** X3: a click on a progress bar of non-zero width never throws, with
    the duration unknown or known: while it is unknown the position
    becomes 0; once it is known and non-negative the position lies in
    [0, duration], and is [offsetX / clientWidth * duration] for a click
    inside the bar. *)
Theorem jumpProgress_safe (p : player) (offsetX clientWidth : R)
    (Hw : clientWidth <> 0) :
  (duration (aud p) = NaN ->
     exists p', jumpProgress p offsetX clientWidth = Done p' /\
       currentTime (aud p') = 0) /\
  (forall d, duration (aud p) = Fin d -> 0 <= d ->
     exists p', jumpProgress p offsetX clientWidth = Done p' /\
       0 <= currentTime (aud p') <= d /\
       (0 <= offsetX / clientWidth <= 1 ->
        currentTime (aud p') = offsetX / clientWidth * d)).
Proof.
  split; [now apply jumpProgress_unresolved|].
  intros d Hd Hd0. unfold jumpProgress, durationOrZero.
  rewrite seekPercent_finite, Hd by assumption. simpl mul.
  destruct (setProgress_clamps p (Fin (offsetX / clientWidth * d)) d Hd Hd0)
    as (p' & E & B & C); [discriminate|].
  exists p'. split; [exact E|]. split; [exact B|].
  intros Hf. unfold clampTime, gt in C. rewrite Hd in C. simpl in C.
  assert (0 <= offsetX / clientWidth * d) by (apply Rmult_le_pos; lra).
  assert (offsetX / clientWidth * d <= 1 * d)
    by (apply Rmult_le_compat_r; lra).
  replace (Rltb (offsetX / clientWidth * d) 0) with false in C
    by (symmetry; apply Rltb_false; lra).
  replace (Rltb d (offsetX / clientWidth * d)) with false in C
    by (symmetry; apply Rltb_false; lra).
  now apply Fin_inj in C.
Qed.

Lemma jumpProgress_safe_witness :
  200 <> 0 /\
  exists p',
    jumpProgress
      (mkPlayer (mkAudio 0 (Fin 120) (8 / 10) false) false false
         (mkCanvas 1600 900) "00:00" (Fin 0) (Fin 0) (Fin 80)) 50 200
      = Done p' /\
    0 <= currentTime (aud p') <= 120 /\
    (0 <= 50 / 200 <= 1 -> currentTime (aud p') = 50 / 200 * 120).
Proof.
  assert (H : 200 <> 0) by lra.
  assert (H0 : 0 <= 120) by lra.
  split; [exact H|].
  exact (proj2 (jumpProgress_safe
      (mkPlayer (mkAudio 0 (Fin 120) (8 / 10) false) false false
         (mkCanvas 1600 900) "00:00" (Fin 0) (Fin 0) (Fin 80)) 50 200 H)
      120 eq_refl H0).
Defined.

(** X25: while the duration is unknown, hovering anywhere over a
    progress bar of non-zero width previews "00:00". *)
Theorem seekProgress_unresolved_text (p : player) (offsetX clientWidth : R)
    (Hw : clientWidth <> 0) (Hd : duration (aud p) = NaN) :
  timeNow (seekProgress p offsetX clientWidth) = "00:00"%string /\
  aud (seekProgress p offsetX clientWidth) = aud p.
Proof.
  split; [|reflexivity].
  unfold seekProgress. cbn [timeNow].
  rewrite seekTime_unresolved by assumption.
  change 0 with (IZR 0). now rewrite parseSecondsToTime_whole by lia.
Qed.

Lemma seekProgress_unresolved_text_witness :
  200 <> 0 /\ duration (aud (initPlayer (mkCanvas 1600 900))) = NaN /\
  timeNow (seekProgress (initPlayer (mkCanvas 1600 900)) 300 200)
    = "00:00"%string.
Proof.
  assert (H : 200 <> 0) by lra.
  split; [exact H|]. split; [reflexivity|].
  exact (proj1 (seekProgress_unresolved_text
                  (initPlayer (mkCanvas 1600 900)) 300 200 H eq_refl)).
Defined.

(** ** Volume, mute and the wheel *)

(** What [setVolume] does on any number but [NaN], in a state whose
    mute flags agree and whose volume is in range. *)
Lemma setVolume_total p v :
  v <> NaN -> lock_step p -> 0 <= volume (aud p) <= 1 ->
  exists p', setVolume p v = Done p' /\
    lock_step p' /\ 0 <= volume (aud p') <= 1 /\
    currentTime (aud p') = currentTime (aud p) /\
    duration (aud p') = duration (aud p) /\
    canvasSize p' = canvasSize p /\
    (lt v (Fin 0) = true ->
       muted (aud p') = true /\ volume (aud p') = volume (aud p) /\
       barVolumeNowHeight p' = barVolumeNowHeight p) /\
    (lt v (Fin 0) = false ->
       muted (aud p') = false /\
       barVolumeNowHeight p' = Fin (volume (aud p') * 100) /\
       (gt v (Fin 1) = true -> volume (aud p') = 1) /\
       (forall x, v = Fin x -> x <= 1 -> volume (aud p') = x)).
Proof.
  intros Hn L Hv. unfold lock_step in L.
  destruct (lt v (Fin 0)) eqn:E0.
  - rewrite (setVolume_negative _ _ E0). eexists; split; [reflexivity|].
    destruct (isMuted p) eqn:E; simpl; unfold lock_step; simpl;
      rewrite <- ?L; repeat split; auto; try lra; discriminate.
  - assert (Hc : exists x, 0 <= x <= 1 /\ setVolume p v = setVolume p (Fin x) /\
                   (gt v (Fin 1) = true -> x = 1) /\
                   (forall y, v = Fin y -> y <= 1 -> x = y)).
    { destruct (gt v (Fin 1)) eqn:E1.
      - exists 1. split; [lra|]. split; [now apply setVolume_above|].
        split; [auto|]. intros y -> Hy. unfold gt in E1. simpl in E1.
        apply Rltb_true in E1. lra.
      - destruct v as [| [|] | x]; simpl in *; try congruence.
        unfold gt in E1. simpl in E1. apply Rltb_false in E0, E1.
        exists x. split; [lra|]. split; [reflexivity|].
        split; [discriminate|]. intros y [= ->] _. reflexivity. }
    destruct Hc as (x & Hx & -> & Hx1 & Hx2).
    rewrite (setVolume_in_range _ _ Hx). eexists; split; [reflexivity|].
    destruct (isMuted p) eqn:E; simpl; unfold lock_step; simpl;
      rewrite <- ?L; repeat split; auto; try lra; discriminate.
Qed.

(** X18: in every state the volume controls can reach, the stored
    volume lies in [0,1], the reactive mute flag agrees with the
    element, and the volume indicator shows the stored volume in
    percent, also while muted. *)
Theorem volume_indicator_invariant (c : canvas) (p : player)
    (Hp : volume_reachable c p) :
  0 <= volume (aud p) <= 1 /\
  isMuted p = muted (aud p) /\
  barVolumeNowHeight p = Fin (volume (aud p) * 100).
Proof.
  induction Hp as [| p Hp (I1 & I2 & I3) | p v p' Hp (I1 & I2 & I3) E].
  - simpl. repeat split; lra.
  - simpl. auto.
  - assert (Hn : v <> NaN).
    { intros ->. unfold setVolume in E. simpl in E.
      destruct (isMuted p); discriminate. }
    destruct (setVolume_total p v Hn I2 I1)
      as (q & Eq & L & V & _ & _ & _ & Hneg & Hpos).
    rewrite Eq in E. injection E as <-.
    split; [exact V|]. split; [exact L|].
    destruct (lt v (Fin 0)) eqn:E0.
    + destruct (Hneg eq_refl) as (_ & -> & ->). exact I3.
    + now destruct (Hpos eq_refl) as (_ & -> & _).
Qed.

Lemma volume_indicator_invariant_witness :
  volume_reachable (mkCanvas 1600 900)
    (toggleMute (initPlayer (mkCanvas 1600 900))) /\
  barVolumeNowHeight (toggleMute (initPlayer (mkCanvas 1600 900)))
    = Fin (volume (aud (toggleMute (initPlayer (mkCanvas 1600 900)))) * 100).
Proof.
  assert (H : volume_reachable (mkCanvas 1600 900)
                (toggleMute (initPlayer (mkCanvas 1600 900))))
    by apply vr_toggle, vr_init.
  split; [exact H|].
  exact (proj2 (proj2 (volume_indicator_invariant _ _ H))).
Defined.

(** X20: muting and un-muting again restores the state exactly, in
    every state whose mute flags agree; the stored volume is never
    touched by the mute button. *)
Theorem toggleMute_involutive (p : player) (L : lock_step p) :
  toggleMute (toggleMute p) = p /\
  volume (aud (toggleMute p)) = volume (aud p) /\
  muted (aud (toggleMute p)) = negb (muted (aud p)) /\
  isMuted (toggleMute p) = negb (isMuted p).
Proof.
  unfold lock_step in L. destruct p as [[ct du vo mu] im sk cs tn bp sl bv].
  simpl in *. subst im. unfold toggleMute. simpl.
  rewrite negb_involutive. auto.
Qed.

Lemma toggleMute_involutive_witness :
  lock_step (initPlayer (mkCanvas 1600 900)) /\
  toggleMute (toggleMute (initPlayer (mkCanvas 1600 900)))
    = initPlayer (mkCanvas 1600 900).
Proof.
  split; [reflexivity|].
  exact (proj1 (toggleMute_involutive (initPlayer (mkCanvas 1600 900)) eq_refl)).
Defined.

(** X19: a click on a volume bar of positive height never throws.  At
    height [offsetY] from the top, inside the bar, the volume becomes
    [(clientHeight - offsetY) / clientHeight] and the element is
    un-muted; below the bar the click only mutes; above it the volume
    becomes 1. *)
Theorem jumpVolume_click (p : player) (offsetY clientHeight : R)
    (Hh : 0 < clientHeight) (L : lock_step p)
    (Hv : 0 <= volume (aud p) <= 1) :
  exists p', jumpVolume p offsetY clientHeight = Done p' /\
    0 <= volume (aud p') <= 1 /\
    (0 <= offsetY <= clientHeight ->
       volume (aud p') = (clientHeight - offsetY) / clientHeight /\
       muted (aud p') = false) /\
    (clientHeight < offsetY ->
       muted (aud p') = true /\ volume (aud p') = volume (aud p)) /\
    (offsetY < 0 -> volume (aud p') = 1 /\ muted (aud p') = false).
Proof.
  unfold jumpVolume.
  assert (D : div (sub (Fin clientHeight) (Fin offsetY)) (Fin clientHeight)
              = Fin ((clientHeight - offsetY) / clientHeight)).
  { simpl. replace (Reqb clientHeight 0) with false
      by (symmetry; apply Reqb_false; lra).
    reflexivity. }
  rewrite D.
  assert (Hn : Fin ((clientHeight - offsetY) / clientHeight) <> NaN)
    by discriminate.
  destruct (setVolume_total p _ Hn L Hv)
    as (q & Eq & _ & V & _ & _ & _ & Hneg & Hpos).
  exists q. split; [exact Eq|]. split; [exact V|].
  assert (Hi : 0 < / clientHeight) by now apply Rinv_0_lt_compat.
  assert (S : forall a, 0 <= a -> 0 <= a / clientHeight).
  { intros a Ha. apply Rmult_le_pos; lra. }
  assert (S' : forall a, a < 0 -> a / clientHeight < 0).
  { intros a Ha. unfold Rdiv. nra. }
  assert (E1 : (clientHeight - offsetY) / clientHeight
               = 1 - offsetY / clientHeight) by (field; lra).
  split; [|split].
  - intros Hy. pose proof (S _ (proj1 Hy)). pose proof (S (clientHeight - offsetY)).
    destruct Hpos as (M & _ & _ & X).
    { simpl. apply Rltb_false. apply S. lra. }
    split; [|exact M]. apply X; [reflexivity|]. lra.
  - intros Hy. destruct Hneg as (M & X & _); [|auto].
    simpl. apply Rltb_true. apply S'. lra.
  - intros Hy. pose proof (S' _ Hy).
    destruct Hpos as (M & _ & X & _).
    { simpl. apply Rltb_false. lra. }
    split; [|exact M]. apply X. unfold gt. simpl. apply Rltb_true. lra.
Qed.

Lemma jumpVolume_click_witness :
  0 < 100 /\ lock_step (initPlayer (mkCanvas 1600 900)) /\
  0 <= volume (aud (initPlayer (mkCanvas 1600 900))) <= 1 /\
  exists p', jumpVolume (initPlayer (mkCanvas 1600 900)) 25 100 = Done p' /\
    (0 <= 25 <= 100 ->
       volume (aud p') = (100 - 25) / 100 /\ muted (aud p') = false).
Proof.
  assert (H : 0 < 100) by lra.
  assert (V : 0 <= volume (aud (initPlayer (mkCanvas 1600 900))) <= 1)
    by (simpl; lra).
  split; [exact H|]. split; [reflexivity|]. split; [exact V|].
  destruct (jumpVolume_click (initPlayer (mkCanvas 1600 900)) 25 100 H
              eq_refl V) as (p' & E & _ & I & _).
  exists p'. split; [exact E | exact I].
Defined.

(** X4: with a known, non-negative duration and a canvas of non-zero
    width the wheel handler never throws: it leaves the position in
    [0, duration] and the volume in [0,1], keeps the mute flags in
    agreement, does not move the position without a horizontal delta
    and does not touch volume or mute state without a vertical one. *)
Theorem scrollEvent_safe (p : player) (deltaX deltaY d : R)
    (Hd : duration (aud p) = Fin d) (Hd0 : 0 <= d)
    (Hc : 0 <= currentTime (aud p) <= d)
    (Hw : width (canvasSize p) <> 0)
    (L : lock_step p) (Hv : 0 <= volume (aud p) <= 1) :
  exists p', scrollEvent p deltaX deltaY = Done p' /\
    0 <= currentTime (aud p') <= d /\
    0 <= volume (aud p') <= 1 /\
    lock_step p' /\
    (deltaX = 0 -> currentTime (aud p') = currentTime (aud p)) /\
    (deltaY = 0 ->
       volume (aud p') = volume (aud p) /\ muted (aud p') = muted (aud p)).
Proof.
  unfold scrollEvent.
  assert (H1 : exists p1,
    (if truthy (Fin deltaX) then
       setProgress p
         (sub (Fin (currentTime (aud p)))
              (mul (div (Fin deltaX) (Fin (width (canvasSize p))))
                   (duration (aud p))))
     else Done p) = Done p1 /\
    0 <= currentTime (aud p1) <= d /\
    (deltaX = 0 -> p1 = p) /\
    duration (aud p1) = Fin d /\ volume (aud p1) = volume (aud p) /\
    muted (aud p1) = muted (aud p) /\ isMuted p1 = isMuted p).
  { simpl truthy. destruct (Reqb deltaX 0) eqn:E; simpl negb.
    - exists p. repeat split; auto; lra.
    - apply Reqb_false in E.
      destruct (setProgress_fields p
        (sub (Fin (currentTime (aud p)))
             (mul (div (Fin deltaX) (Fin (width (canvasSize p))))
                  (duration (aud p)))) d Hd Hd0)
        as (p1 & E1 & B & _ & _ & _ & F).
      { rewrite Hd. simpl.
        replace (Reqb (width (canvasSize p)) 0) with false
          by (symmetry; now apply Reqb_false).
        discriminate. }
      exists p1. split; [exact E1|]. split; [exact B|].
      split; [intros; contradiction | exact F]. }
  destruct H1 as (p1 & -> & B1 & I1 & D1 & V1 & M1 & IM1).
  cbn [bind].
  assert (L1 : lock_step p1) by (unfold lock_step in *; congruence).
  assert (Hv1 : 0 <= volume (aud p1) <= 1) by (rewrite V1; exact Hv).
  simpl truthy. destruct (Reqb deltaY 0) eqn:E; simpl negb.
  - exists p1. repeat split; auto; try lra.
    intros H0. now rewrite (I1 H0).
  - apply Reqb_false in E.
    destruct (setVolume_total p1
      (sub (Fin (volume (aud p1)))
           (div (Fin deltaY) (Fin (height (canvasSize p1))))))
      as (p2 & E2 & L2 & V2 & C2 & _); auto.
    { simpl. unfold scale_inf.
      destruct (Reqb (height (canvasSize p1)) 0); [|discriminate].
      replace (Reqb deltaY 0) with false by (symmetry; now apply Reqb_false).
      discriminate. }
    exists p2. split; [exact E2|]. rewrite C2.
    repeat split; auto; try lra; try contradiction.
    intros H0. now rewrite (I1 H0).
Qed.

Lemma scrollEvent_safe_witness :
  Fin 120 = Fin 120 /\ 0 <= 120 /\ 0 <= 30 <= 120 /\ 1600 <> 0 /\
  exists p',
    scrollEvent
      (mkPlayer (mkAudio 30 (Fin 120) (8 / 10) false) false false
         (mkCanvas 1600 900) "00:30" (Fin 25) (Fin 25) (Fin 80)) 800 (-450)
      = Done p' /\
    0 <= currentTime (aud p') <= 120 /\ 0 <= volume (aud p') <= 1.
Proof.
  assert (H0 : 0 <= 120) by lra.
  assert (Hc : 0 <= 30 <= 120) by lra.
  assert (Hw : 1600 <> 0) by lra.
  assert (Hv : 0 <= 8 / 10 <= 1) by lra.
  split; [reflexivity|]. split; [exact H0|]. split; [exact Hc|].
  split; [exact Hw|].
  destruct (scrollEvent_safe
      (mkPlayer (mkAudio 30 (Fin 120) (8 / 10) false) false false
         (mkCanvas 1600 900) "00:30" (Fin 25) (Fin 25) (Fin 80))
      800 (-450) 120 eq_refl H0 Hc Hw eq_refl Hv) as (p' & E & B & V & _).
  exists p'. split; [exact E|]. split; [exact B | exact V].
Defined.

Lemma setWidthPercent_valid old v :
  0 <= v -> setWidthPercent old (Fin v) = Fin v.
Proof.
  intros H. simpl.
  now replace (Rltb v 0) with false by (symmetry; apply Rltb_false; lra).
Qed.

Lemma playedPercent_known ct d :
  0 < d -> 0 <= ct ->
  mul (div (Fin ct) (Fin d)) (Fin 100) = Fin (ct / d * 100) /\
  0 <= ct / d * 100.
Proof.
  intros Hd Hc. simpl.
  replace (Reqb d 0) with false by (symmetry; apply Reqb_false; lra).
  split; [reflexivity|].
  assert (0 <= ct / d) by (apply Rmult_le_pos; [lra|];
                           left; now apply Rinv_0_lt_compat).
  lra.
Qed.

(** X21: what is left of a seek preview.  Once the duration is known
    and positive, leaving the progress bar after a preview shows exactly
    what leaving it without one shows, namely the true position in the
    played bar and the seeker, and a redraw after that changes nothing
    in the control bar; while the pointer is over the bar a redraw keeps
    the previewed time text and seeker position and resets only the
    played bar.  While the duration is unknown the percentage is not a
    number, the style assignments are ignored, and the played bar and
    the seeker keep the previewed position after leaving the bar and
    after a redraw.  Neither handler touches the media element. *)
Theorem seek_preview_homing (p : player) (offsetX clientWidth : R) :
  (forall d,
     duration (aud p) = Fin d -> 0 < d -> 0 <= currentTime (aud p) ->
     endSeeking (seekProgress p offsetX clientWidth) = endSeeking p /\
     barPlayedWidth (endSeeking p) = Fin (currentTime (aud p) / d * 100) /\
     seekerLeft (endSeeking p) = Fin (currentTime (aud p) / d * 100) /\
     renderProgress (endSeeking p) = endSeeking p /\
     (isSeeking p = true ->
        timeNow (renderProgress (seekProgress p offsetX clientWidth))
          = timeNow (seekProgress p offsetX clientWidth) /\
        seekerLeft (renderProgress (seekProgress p offsetX clientWidth))
          = seekerLeft (seekProgress p offsetX clientWidth) /\
        barPlayedWidth (renderProgress (seekProgress p offsetX clientWidth))
          = Fin (currentTime (aud p) / d * 100))) /\
  (duration (aud p) = NaN ->
     barPlayedWidth (endSeeking (seekProgress p offsetX clientWidth))
       = barPlayedWidth (seekProgress p offsetX clientWidth) /\
     seekerLeft (endSeeking (seekProgress p offsetX clientWidth))
       = seekerLeft (seekProgress p offsetX clientWidth) /\
     barPlayedWidth (renderProgress (seekProgress p offsetX clientWidth))
       = barPlayedWidth (seekProgress p offsetX clientWidth) /\
     seekerLeft (renderProgress (seekProgress p offsetX clientWidth))
       = seekerLeft (seekProgress p offsetX clientWidth)) /\
  aud (endSeeking p) = aud p /\ aud (renderProgress p) = aud p.
Proof.
  split; [|split; [|split; reflexivity]].
  - intros d Hd Hd0 Hc.
    destruct (playedPercent_known _ _ Hd0 Hc) as [E V].
    assert (A : forall q, aud q = aud p ->
              endSeeking q =
              mkPlayer (aud p) (isMuted q) false (canvasSize q)
                (parseSecondsToTime (Fin (currentTime (aud p))))
                (Fin (currentTime (aud p) / d * 100))
                (Fin (currentTime (aud p) / d * 100))
                (barVolumeNowHeight q)).
    { intros q Hq. unfold endSeeking. rewrite Hq, Hd, E.
      now rewrite setWidthPercent_valid. }
    split; [now rewrite (A (seekProgress p offsetX clientWidth)), (A p)|].
    split; [now rewrite (A p)|]. split; [now rewrite (A p)|].
    split.
    + rewrite (A p eq_refl). unfold renderProgress.
      cbn [aud isMuted isSeeking canvasSize timeNow barPlayedWidth seekerLeft
           barVolumeNowHeight negb].
      rewrite Hd, E. now rewrite setWidthPercent_valid.
    + intros Hs. unfold renderProgress.
      assert (S : isSeeking (seekProgress p offsetX clientWidth) = true)
        by exact Hs.
      rewrite S. cbn [timeNow seekerLeft barPlayedWidth negb].
      split; [reflexivity|]. split; [reflexivity|].
      change (aud (seekProgress p offsetX clientWidth)) with (aud p).
      rewrite Hd, E. now apply setWidthPercent_valid.
  - intros Hd. unfold endSeeking, renderProgress.
    change (aud (seekProgress p offsetX clientWidth)) with (aud p).
    rewrite Hd.
    cbn [div mul setWidthPercent setLeftPercent barPlayedWidth seekerLeft].
    repeat split; destruct (negb _); reflexivity.
Qed.

Lemma seek_preview_homing_witness :
  Fin 120 = Fin 120 /\ 0 < 120 /\ 0 <= 30 /\
  endSeeking
    (seekProgress
       (mkPlayer (mkAudio 30 (Fin 120) (8 / 10) false) false true
          (mkCanvas 1600 900) "00:30" (Fin 25) (Fin 25) (Fin 80)) 50 200)
  = endSeeking
      (mkPlayer (mkAudio 30 (Fin 120) (8 / 10) false) false true
         (mkCanvas 1600 900) "00:30" (Fin 25) (Fin 25) (Fin 80)).
Proof.
  assert (H0 : 0 < 120) by lra.
  assert (Hc : 0 <= 30) by lra.
  split; [reflexivity|]. split; [exact H0|]. split; [exact Hc|].
  exact (proj1 (proj1 (seek_preview_homing
      (mkPlayer (mkAudio 30 (Fin 120) (8 / 10) false) false true
         (mkCanvas 1600 900) "00:30" (Fin 25) (Fin 25) (Fin 80)) 50 200)
      120 eq_refl H0 Hc)).
Defined.

(** ** Scheduler: starting, stopping and refreshing *)

Lemma remove_fresh (h : N) (l : list N) :
  ~ In h l -> remove N.eq_dec h (l ++ [h]) = l.
Proof.
  intros Hn. rewrite remove_app, notin_remove by assumption.
  simpl. destruct (N.eq_dec h h); [apply app_nil_r | congruence].
Qed.

Lemma Forall_remove (P : N -> Prop) h l :
  Forall P l -> Forall P (remove N.eq_dec h l).
Proof.
  intros H. rewrite Forall_forall in *. intros a Ha.
  apply in_remove in Ha. apply H, Ha.
Qed.

Lemma fold_reschedule_fresh (l : list N) s :
  Forall (fun h => (h <= Scheduler.lastFrame s)%N) (Scheduler.frames s) ->
  let s' := fold_left (fun a _ => Scheduler.render_reschedule a) l s in
  Forall (fun h => (h <= Scheduler.lastFrame s')%N) (Scheduler.frames s').
Proof.
  revert s. induction l as [|a l IH]; intros s H; simpl; [exact H|].
  apply IH. unfold Scheduler.render_reschedule.
  destruct (negb _); [|exact H]. simpl.
  apply Forall_app. split.
  - eapply Forall_impl; [|exact H]. simpl. intros; lia.
  - constructor; [lia | constructor].
Qed.

(** Handles are handed out in increasing order, so a pending request is
    never newer than the last handle. *)
Lemma reachable_fresh s :
  Scheduler.reachable s ->
  Forall (fun h => (h <= Scheduler.lastFrame s)%N) (Scheduler.frames s).
Proof.
  induction 1 as [| s R IH | s R IH | s R IH | s R IH].
  - simpl. constructor; [lia | constructor].
  - unfold Scheduler.startStep.
    destruct (Scheduler.stepEventId s =? 0)%N; simpl;
      destruct (Scheduler.flushEventId s =? 0)%N; simpl; auto;
      (apply Forall_app; split;
       [eapply Forall_impl; [|exact IH]; simpl; intros; lia
       | constructor; [lia | constructor]]).
  - unfold Scheduler.stopStep.
    destruct (Scheduler.stepEventId s =? 0)%N; simpl;
      destruct (Scheduler.flushEventId s =? 0)%N; simpl; auto;
      now apply Forall_remove.
  - unfold Scheduler.flushCanvas.
    destruct (Scheduler.flushEventId s =? 0)%N; simpl; auto.
    apply Forall_app; split;
      [eapply Forall_impl; [|exact IH]; simpl; intros; lia
      | constructor; [lia | constructor]].
  - unfold Scheduler.animationFrame.
    apply fold_reschedule_fresh. simpl. constructor.
Qed.

(** X5: starting is idempotent and so is stopping, in every state: a
    second [startStep] or [stopStep] in a row changes nothing; after a
    start both handles are non-zero, after a stop both are zero. *)
Theorem start_and_stop_idempotent (s : Scheduler.sched) :
  Scheduler.startStep (Scheduler.startStep s) = Scheduler.startStep s /\
  Scheduler.stopStep (Scheduler.stopStep s) = Scheduler.stopStep s /\
  Scheduler.stepEventId (Scheduler.startStep s) <> 0%N /\
  Scheduler.flushEventId (Scheduler.startStep s) <> 0%N /\
  Scheduler.stepEventId (Scheduler.stopStep s) = 0%N /\
  Scheduler.flushEventId (Scheduler.stopStep s) = 0%N.
Proof.
  split; [apply startStep_idempotent|].
  split; [apply stopStep_idempotent|].
  pose proof (startStep_handles s). pose proof (stopStep_handles s). tauto.
Qed.

(** X6: in every state the scheduler can reach, at most one stepper
    timer exists; the stepper handle is non-zero exactly when that timer
    runs and then names it; the redraw handle is non-zero exactly when
    at least one redraw chain is running. *)
Theorem handles_track_loops (s : Scheduler.sched)
    (Hs : Scheduler.reachable s) :
  (Scheduler.activeSteppers s <= 1)%nat /\
  (Scheduler.stepEventId s <> 0%N <-> Scheduler.activeSteppers s = 1%nat) /\
  (Scheduler.stepEventId s <> 0%N ->
     Scheduler.intervals s = [Scheduler.stepEventId s]) /\
  (Scheduler.flushEventId s <> 0%N <->
     (1 <= Scheduler.activeRedrawChains s)%nat).
Proof.
  destruct (handles_iff_active s Hs) as (H1 & H2 & H3).
  destruct (reachable_consistent s Hs) as [C _].
  split; [|split; [exact H1 | split; [|exact H3]]].
  - unfold Scheduler.activeSteppers.
    destruct C as [[_ ->] | [_ ->]]; simpl; lia.
  - intros Hn. destruct C as [[? _] | [_ ?]]; [contradiction | assumption].
Qed.

Lemma handles_track_loops_witness :
  Scheduler.reachable (Scheduler.startStep Scheduler.init) /\
  (Scheduler.activeSteppers (Scheduler.startStep Scheduler.init) <= 1)%nat.
Proof.
  assert (H : Scheduler.reachable (Scheduler.startStep Scheduler.init))
    by (apply Scheduler.r_start, Scheduler.r_init).
  split; [exact H|].
  exact (proj1 (handles_track_loops _ H)).
Defined.

Lemma animationFrame_idle s :
  Scheduler.frames s = [] -> Scheduler.animationFrame s = s.
Proof.
  intros H. unfold Scheduler.animationFrame. rewrite H.
  destruct s. simpl in *. now subst.
Qed.

(** X7: after a stop the redraw dies out.  Whatever was pending runs at
    the next refresh without requesting a successor, so one refresh
    after [stopStep] nothing is pending and later refreshes do nothing;
    in a reachable state no stepper timer is left either. *)
Theorem stop_ends_redraw (s : Scheduler.sched) :
  Scheduler.frames (Scheduler.animationFrame (Scheduler.stopStep s)) = [] /\
  (forall n,
     Nat.iter n Scheduler.animationFrame
       (Scheduler.animationFrame (Scheduler.stopStep s))
     = Scheduler.animationFrame (Scheduler.stopStep s)) /\
  Scheduler.activeRedrawChains (Scheduler.stopStep s) = 0%nat /\
  (Scheduler.reachable s -> Scheduler.intervals (Scheduler.stopStep s) = []).
Proof.
  destruct (stopStep_handles s) as [H1 H2].
  assert (C : Scheduler.activeRedrawChains (Scheduler.stopStep s) = 0%nat).
  { unfold Scheduler.activeRedrawChains. now rewrite H2. }
  assert (F : Scheduler.frames
                (Scheduler.animationFrame (Scheduler.stopStep s)) = []).
  { destruct (animationFrame_fields (Scheduler.stopStep s)) as (_ & _ & _ & L).
    rewrite C in L. now apply length_zero_iff_nil. }
  split; [exact F|]. split; [|split; [exact C|]].
  - induction n as [|n IH]; simpl; [reflexivity|].
    rewrite IH. now apply animationFrame_idle.
  - intros R. destruct (reachable_consistent _ (Scheduler.r_stop _ R)) as [D _].
    destruct D as [[_ ?] | [? _]]; [assumption | contradiction].
Qed.

(** X8: a stop right after a start, before any refresh, undoes it.  In a
    reachable state with both handles zero, [stopStep (startStep s)]
    has the timers and the pending [render] requests of [s]: the handle
    kept by [startStep] is still the one of the pending request, so the
    cancellation finds it. *)
Theorem stop_undoes_fresh_start (s : Scheduler.sched)
    (Hs : Scheduler.reachable s)
    (H1 : Scheduler.stepEventId s = 0%N)
    (H2 : Scheduler.flushEventId s = 0%N) :
  Scheduler.intervals (Scheduler.stopStep (Scheduler.startStep s))
    = Scheduler.intervals s /\
  Scheduler.frames (Scheduler.stopStep (Scheduler.startStep s))
    = Scheduler.frames s /\
  Scheduler.stepEventId (Scheduler.stopStep (Scheduler.startStep s)) = 0%N /\
  Scheduler.flushEventId (Scheduler.stopStep (Scheduler.startStep s)) = 0%N.
Proof.
  destruct (reachable_consistent s Hs) as [[[_ I] | [? _]] _];
    [|contradiction].
  pose proof (reachable_fresh s Hs) as Fr.
  destruct (stopStep_handles (Scheduler.startStep s)) as [Z1 Z2].
  assert (Z : forall a, (N.succ a =? 0)%N = false)
    by (intros a; apply N.eqb_neq, N.neq_succ_0).
  assert (E : Scheduler.startStep s =
    Scheduler.mkSched (N.succ (Scheduler.lastTimer s))
      (N.succ (Scheduler.lastFrame s)) [N.succ (Scheduler.lastTimer s)]
      (Scheduler.frames s ++ [N.succ (Scheduler.lastFrame s)])%list
      (N.succ (Scheduler.lastTimer s)) (N.succ (Scheduler.lastFrame s))).
  { unfold Scheduler.startStep. rewrite H1. simpl. rewrite H2. simpl.
    now rewrite I. }
  split; [|split; [|split; assumption]].
  - rewrite E, I. unfold Scheduler.stopStep. simpl. rewrite Z. simpl.
    rewrite Z. simpl. now destruct (N.eq_dec _ _).
  - rewrite E. unfold Scheduler.stopStep. simpl. rewrite Z. simpl.
    rewrite Z. simpl. apply remove_fresh.
    intros Hin. rewrite Forall_forall in Fr. apply Fr in Hin. lia.
Qed.

Lemma stop_undoes_fresh_start_witness :
  Scheduler.reachable Scheduler.init /\
  Scheduler.stepEventId Scheduler.init = 0%N /\
  Scheduler.flushEventId Scheduler.init = 0%N /\
  Scheduler.frames (Scheduler.stopStep (Scheduler.startStep Scheduler.init))
    = Scheduler.frames Scheduler.init.
Proof.
  split; [apply Scheduler.r_init|]. split; [reflexivity|].
  split; [reflexivity|].
  exact (proj1 (proj2 (stop_undoes_fresh_start Scheduler.init
                         Scheduler.r_init eq_refl eq_refl))).
Defined.

(** ** Play button and element notifications *)

Lemma react_resumed s e :
  isContextResumed s = true ->
  isContextResumed (fst (react s e)) = true /\
  filter isResume (snd (react s e)) = [].
Proof.
  intros H. destruct e; simpl; auto.
  unfold togglePlay. rewrite H.
  destruct (negb (isLoading s) && paused); simpl; auto.
Qed.

Lemma run_resumed s es :
  isContextResumed s = true ->
  isContextResumed (fst (run s es)) = true /\
  filter isResume (snd (run s es)) = [].
Proof.
  revert s. induction es as [|e es IH]; intros s H; simpl; [auto|].
  destruct (react_resumed s e H) as [R1 R2].
  destruct (react s e) as [s1 c1]. simpl in *.
  destruct (IH s1 R1) as [I1 I2].
  destruct (run s1 es) as [s2 c2]. simpl in *.
  split; [assumption|]. now rewrite filter_app, R2, I2.
Qed.

Lemma run_resume_count s es :
  (List.length (filter isResume (snd (run s es))) <= 1)%nat /\
  (isContextResumed s = false ->
   (isContextResumed (fst (run s es)) = true <->
    List.length (filter isResume (snd (run s es))) = 1%nat)) /\
  (isContextResumed s = false ->
   forall pre post, snd (run s es) = (pre ++ AudioPlay :: post)%list ->
     In ContextResume pre).
Proof.
  revert s. induction es as [|e es IH]; intros s.
  - simpl. split; [lia|]. split.
    + intros H. rewrite H. split; discriminate.
    + intros _ [|c pre] post E; discriminate.
  - simpl.
    destruct (isContextResumed s) eqn:Hr.
    + destruct (run_resumed s (e :: es) Hr) as [_ F]. simpl in F.
      destruct (react s e) as [s1 c1]. destruct (run s1 es) as [s2 c2].
      simpl in *. rewrite F. simpl.
      split; [lia|]. split; discriminate.
    + assert (Cases :
        (isContextResumed (fst (react s e)) = false /\
         filter isResume (snd (react s e)) = [] /\
         filter isPlayCall (snd (react s e)) = []) \/
        (isContextResumed (fst (react s e)) = true /\
         snd (react s e) = [ContextResume; AudioPlay])).
      { destruct e; simpl; auto. unfold togglePlay. rewrite Hr.
        destruct (negb (isLoading s) && paused); simpl; auto. }
      destruct Cases as [(C1 & C2 & C3) | (C1 & C2)].
      * destruct (react s e) as [s1 c1]. simpl in *.
        destruct (IH s1) as (I1 & I2 & I3).
        destruct (run s1 es) as [s2 c2]. simpl in *.
        rewrite filter_app, C2. simpl.
        split; [exact I1|]. split; [intros _; now apply I2|].
        intros _ pre post E.
        assert (G : forall c1 pre,
                  filter isPlayCall c1 = [] ->
                  (c1 ++ c2)%list = (pre ++ AudioPlay :: post)%list ->
                  exists pre', pre = (c1 ++ pre')%list /\
                               c2 = (pre' ++ AudioPlay :: post)%list).
        { clear. induction c1 as [|a c1 IHc]; intros pre Hf E.
          - exists pre. auto.
          - simpl in Hf. destruct pre as [|b pre].
            + simpl in E. injection E as -> _. discriminate.
            + simpl in E. injection E as -> E.
              destruct (isPlayCall b); [discriminate|].
              destruct (IHc pre Hf E) as (pre' & -> & ->).
              exists pre'. auto. }
        destruct (G c1 pre C3 E) as (pre' & -> & E2).
        apply in_or_app. right. now apply (I3 C1 pre' post).
      * destruct (run_resumed (fst (react s e)) es C1) as [_ F].
        destruct (react s e) as [s1 c1]. simpl in *. subst c1.
        destruct (run s1 es) as [s2 c2] eqn:Er. simpl in *.
        rewrite F. simpl. split; [lia|]. split.
        -- intros _. split; [reflexivity|].
           intros _. pose proof (run_resumed s1 es C1) as [G _].
           now rewrite Er in G.
        -- intros _ [|c pre] post E; [discriminate|].
           injection E as <- _. now left.
Qed.

(** X22: over any sequence of clicks and element notifications, starting
    from the state the script declares, [context.resume()] is called at
    most once, it has been called exactly when [isContextResumed] is
    set, and every [audio.play()] comes after it; a click requests
    playback only when the component is not loading and the element is
    paused, and otherwise requests a pause. *)
Theorem resume_once_before_play (es : list happening) :
  (List.length (filter isResume (snd (run initControl es))) <= 1)%nat /\
  (isContextResumed (fst (run initControl es)) = true <->
   List.length (filter isResume (snd (run initControl es))) = 1%nat) /\
  (forall pre post,
     snd (run initControl es) = (pre ++ AudioPlay :: post)%list ->
     In ContextResume pre) /\
  (forall s paused,
     (In AudioPlay (snd (togglePlay paused s)) <->
      isLoading s = false /\ paused = true) /\
     (snd (togglePlay paused s) = [AudioPause] <->
      ~ (isLoading s = false /\ paused = true))).
Proof.
  destruct (run_resume_count initControl es) as (H1 & H2 & H3).
  split; [exact H1|]. split; [now apply H2|]. split; [now apply H3|].
  intros s paused. unfold togglePlay.
  destruct (isLoading s), paused, (isContextResumed s); simpl;
    split; split; intros; try tauto; try discriminate;
    intuition (try discriminate; auto).
Qed.

(** X23: the listeners are safe to run twice: a repeated 'play' or
    'pause' notification changes nothing.  After 'pause' the component
    shows "not playing" and both scheduler handles are zero; after
    'play' it shows "playing" and both are non-zero; 'waiting',
    'playing' and 'canplay' only change the flags and leave the
    scheduler alone, so the animation keeps running while the element
    buffers. *)
Theorem listeners_idempotent (s : control) :
  onPlay (onPlay s) = onPlay s /\
  onPause (onPause s) = onPause s /\
  (isPlaying (onPause s) = false /\
   Scheduler.stepEventId (timers (onPause s)) = 0%N /\
   Scheduler.flushEventId (timers (onPause s)) = 0%N) /\
  (isPlaying (onPlay s) = true /\
   Scheduler.stepEventId (timers (onPlay s)) <> 0%N /\
   Scheduler.flushEventId (timers (onPlay s)) <> 0%N) /\
  (timers (onWaiting s) = timers s /\ timers (onPlaying s) = timers s /\
   timers (onCanplay s) = timers s) /\
  (isLoading (onWaiting s) = true /\ isPlaying (onWaiting s) = false /\
   isLoading (onCanplay s) = false /\ isLoading (onPlaying s) = false).
Proof.
  unfold onPlay, onPause. simpl.
  rewrite startStep_idempotent, stopStep_idempotent.
  pose proof (startStep_handles (timers s)).
  pose proof (stopStep_handles (timers s)).
  repeat split; tauto.
Qed.

(** ** Buffered progress *)

Lemma latestBufferedFrom_spec a ends :
  a <= latestBufferedFrom a ends /\
  Forall (fun e => e <= latestBufferedFrom a ends) ends /\
  (latestBufferedFrom a ends = a \/ In (latestBufferedFrom a ends) ends).
Proof.
  revert a. induction ends as [|e ends IH]; intros a; simpl.
  - split; [lra|]. split; [constructor | now left].
  - destruct (IH (if Rltb a e then e else a)) as (I1 & I2 & I3).
    destruct (Rltb a e) eqn:E.
    + apply Rltb_true in E. split; [lra|]. split; [constructor; auto|].
      destruct I3 as [-> | I3]; auto.
    + apply Rltb_false in E. split; [lra|]. split; [constructor; [lra|auto]|].
      destruct I3 as [-> | I3]; auto.
Qed.

(** X24: the buffered bar follows the furthest buffered end: the value
    the 'progress' listener computes is at least 0 and at least every
    range end, it is 0 or one of the ends, it is 0 when nothing is
    buffered, and it does not depend on the order of the ranges. *)
Theorem latestBuffered_is_furthest (ends : list R) :
  0 <= latestBuffered ends /\
  Forall (fun e => e <= latestBuffered ends) ends /\
  (latestBuffered ends = 0 \/ In (latestBuffered ends) ends) /\
  latestBuffered [] = 0 /\
  (forall ends', Permutation ends ends' ->
     latestBuffered ends' = latestBuffered ends).
Proof.
  unfold latestBuffered.
  destruct (latestBufferedFrom_spec 0 ends) as (H1 & H2 & H3).
  split; [exact H1|]. split; [exact H2|]. split; [exact H3|].
  split; [reflexivity|].
  intros ends' P.
  destruct (latestBufferedFrom_spec 0 ends') as (G1 & G2 & G3).
  rewrite Forall_forall in H2, G2.
  apply Rle_antisym.
  - destruct G3 as [-> | G3]; [exact H1|].
    apply H2. eapply Permutation_in; [apply Permutation_sym, P | exact G3].
  - destruct H3 as [-> | H3]; [exact G1|].
    apply G2. eapply Permutation_in; [exact P | exact H3].
Qed.

(** ** Projection *)

Lemma project_offsets r a cx cy :
  x (convertPolarToCartesian r a cx cy) - cx
    = r * cos ((a - 90) * (PI / 180)) /\
  y (convertPolarToCartesian r a cx cy) - cy
    = r * sin ((a - 90) * (PI / 180)).
Proof. unfold convertPolarToCartesian. simpl. split; lra. Qed.

Lemma project_in_square r a cx cy :
  0 <= r ->
  cx - r <= x (convertPolarToCartesian r a cx cy) <= cx + r /\
  cy - r <= y (convertPolarToCartesian r a cx cy) <= cy + r.
Proof.
  intros Hr. destruct (project_offsets r a cx cy) as [Hx Hy].
  pose proof (COS_bound ((a - 90) * (PI / 180))) as [C1 C2].
  pose proof (SIN_bound ((a - 90) * (PI / 180))) as [S1 S2].
  split; split; nra.
Qed.


(** ** Fragments and the canvas *)

(** X9: for a canvas with non-negative sides and a fragment of
    non-negative size, [drawFragment] returns false exactly when the
    fragment's bounding square and the canvas rectangle have no point in
    common, and true exactly when they share one; a square that only
    touches an edge counts as on the canvas. *)
Theorem drawFragment_decides_overlap (c : canvas) (f : FragmentProps)
    (Hw : 0 <= width c) (Hh : 0 <= height c) (Hr : 0 <= selfRadius f) :
  (fst (drawFragment c f) = false <-> fully_outside c f) /\
  (fst (drawFragment c f) = true <->
   exists px py,
     (x (convertPolarToCartesian_centre c (positionRadius f) (positionAngle f))
        - selfRadius f <= px
      <= x (convertPolarToCartesian_centre c (positionRadius f) (positionAngle f))
        + selfRadius f) /\
     (y (convertPolarToCartesian_centre c (positionRadius f) (positionAngle f))
        - selfRadius f <= py
      <= y (convertPolarToCartesian_centre c (positionRadius f) (positionAngle f))
        + selfRadius f) /\
     0 <= px <= width c /\ 0 <= py <= height c) /\
  (fst (drawFragment c f) = false -> snd (drawFragment c f) = []) /\
  (fst (drawFragment c f) = true -> List.length (snd (drawFragment c f)) = 1%nat).
Proof.
  pose proof (drawFragment_outside c f Hw Hh Hr) as O.
  assert (A : fst (drawFragment c f) = false <-> fully_outside c f).
  { rewrite O. split; [|now intros ->].
    intros H. unfold drawFragment in *. cbv zeta in *.
    destruct (_ || _ || _ || _); [reflexivity | discriminate]. }
  split; [exact A|]. split; [|split].
  - split.
    + intros T. unfold drawFragment in T. cbv zeta in T.
      set (center := convertPolarToCartesian_centre c (positionRadius f)
                       (positionAngle f)) in *.
      destruct (Rltb (x center + selfRadius f) 0) eqn:E1; [discriminate|].
      destruct (Rltb (width c) (x center - selfRadius f)) eqn:E2;
        [discriminate|].
      destruct (Rltb (y center + selfRadius f) 0) eqn:E3; [discriminate|].
      destruct (Rltb (height c) (y center - selfRadius f)) eqn:E4;
        [discriminate|].
      apply Rltb_false in E1, E2, E3, E4.
      exists (Rmax (x center - selfRadius f) 0),
             (Rmax (y center - selfRadius f) 0).
      unfold Rmax; repeat destruct (Rle_dec _ _); repeat split; lra.
    + intros (px & py & Bx & By & Cx & Cy).
      apply not_false_is_true. intros E.
      apply A in E. exact (E px py Bx By (conj Cx Cy)).
  - unfold drawFragment. cbv zeta.
    destruct (_ || _ || _ || _); [reflexivity | discriminate].
  - unfold drawFragment. cbv zeta.
    destruct (_ || _ || _ || _); [discriminate | reflexivity].
Qed.

Lemma drawFragment_decides_overlap_witness :
  0 <= width (mkCanvas 1600 900) /\ 0 <= height (mkCanvas 1600 900) /\
  0 <= selfRadius (mkFragment 6 0 0 0 0.4 0) /\
  (fst (drawFragment (mkCanvas 1600 900) (mkFragment 6 0 0 0 0.4 0)) = false
   <-> fully_outside (mkCanvas 1600 900) (mkFragment 6 0 0 0 0.4 0)).
Proof.
  assert (H1 : 0 <= width (mkCanvas 1600 900)) by (simpl; lra).
  assert (H2 : 0 <= height (mkCanvas 1600 900)) by (simpl; lra).
  assert (H3 : 0 <= selfRadius (mkFragment 6 0 0 0 0.4 0)) by (simpl; lra).
  split; [exact H1|]. split; [exact H2|]. split; [exact H3|].
  exact (proj1 (drawFragment_decides_overlap _ _ H1 H2 H3)).
Defined.



(** ** The render pass over the fragments *)

Lemma renderFragments_calls random c fs l k :
  snd (renderFragments random c fs l k) = (k + 5 * offCanvas c l)%nat.
Proof.
  revert k. unfold offCanvas.
  induction l as [|f l IH]; intros k; simpl; [lia|].
  destruct (fst (drawFragment c f)) eqn:E; simpl.
  - specialize (IH k).
    destruct (renderFragments random c fs l k) as [[fr lg] k'].
    simpl in *. exact IH.
  - specialize (IH (k + 5)%nat).
    destruct (renderFragments random c fs l (k + 5)) as [[fr lg] k'].
    simpl in *. lia.
Qed.

Lemma renderFragments_fixed random c fs l k :
  Forall (fun f => fst (drawFragment c f) = true) l ->
  renderFragments random c fs l k
    = (l, flat_map (fun f => snd (drawFragment c f)) l, k).
Proof.
  induction 1 as [|f l Hf Hl IH]; simpl; [reflexivity|].
  now rewrite Hf, IH.
Qed.

Lemma renderFragments_on_canvas random c fs l k :
  (forall j, fst (drawFragment c (recycledFragment random fs j)) = true) ->
  Forall (fun f => fst (drawFragment c f) = true)
    (fst (fst (renderFragments random c fs l k))).
Proof.
  intros HR. revert k. induction l as [|f l IH]; intros k; simpl.
  - constructor.
  - destruct (fst (drawFragment c f)) eqn:E.
    + specialize (IH k).
      destruct (renderFragments random c fs l k) as [[fr lg] k'].
      simpl in *. constructor; auto.
    + specialize (IH (k + 5)%nat).
      destruct (renderFragments random c fs l (k + 5)) as [[fr lg] k'].
      simpl in *. constructor; auto.
Qed.

Lemma flat_map_one {A B : Type} (g : A -> list B) (l : list A) :
  Forall (fun a => List.length (g a) = 1%nat) l ->
  List.length (flat_map g l) = List.length l.
Proof.
  induction 1 as [|a l Ha Hl IH]; simpl; [reflexivity|].
  rewrite length_app, Ha, IH. reflexivity.
Qed.

Lemma drawFragment_one c f :
  fst (drawFragment c f) = true ->
  List.length (snd (drawFragment c f)) = 1%nat.
Proof.
  unfold drawFragment. cbv zeta.
  destruct (_ || _ || _ || _); [discriminate | reflexivity].
Qed.

(** X10: what one fragment pass of [render] costs and keeps.  It makes
    five calls of [Math.random] for each fragment that [drawFragment]
    refused and none otherwise; it keeps the number of slots; a fragment
    that was on the canvas stays in its slot unchanged; and when every
    fragment is on the canvas the pass changes nothing. *)
Theorem render_pass_accounting (random : nat -> R) (c : canvas)
    (fs : FragmentSize.t) (l : list FragmentProps) (k : nat) :
  snd (renderFragments random c fs l k) = (k + 5 * offCanvas c l)%nat /\
  List.length (fst (fst (renderFragments random c fs l k))) = List.length l /\
  (forall i f, nth_error l i = Some f -> fst (drawFragment c f) = true ->
     nth_error (fst (fst (renderFragments random c fs l k))) i = Some f) /\
  (offCanvas c l = 0%nat ->
     fst (fst (renderFragments random c fs l k)) = l /\
     snd (renderFragments random c fs l k) = k).
Proof.
  destruct (renderFragments_slots random c fs l k) as (_ & L & S).
  split; [apply renderFragments_calls|]. split; [exact L|]. split.
  - intros i f Hf Hd. now apply (S i f Hf).
  - intros H0.
    assert (F : Forall (fun f => fst (drawFragment c f) = true) l).
    { unfold offCanvas in H0. apply length_zero_iff_nil in H0.
      rewrite Forall_forall. intros f Hf.
      destruct (fst (drawFragment c f)) eqn:E; [reflexivity|].
      assert (Hin : In f (filter (fun f => negb (fst (drawFragment c f))) l))
        by (apply filter_In; split; [assumption | now rewrite E]).
      rewrite H0 in Hin. contradiction. }
    now rewrite (renderFragments_fixed random c fs l k F).
Qed.

(** ** Spawning *)

Lemma reachable_canvas random s :
  scene_reachable random s ->
  exists w, 0 <= w /\ sceneCanvas s = size (initCanvasSize w).
Proof.
  induction 1 as [w Hw | s R IH | w s Hw R IH | s R IH].
  - exists w. split; [assumption|].
    unfold initScene. cbv zeta.
    now destruct (initFragmentsLoop random _ _ _ _) as [[fr lg] k'].
  - exact IH.
  - unfold resize. destruct (truthy (Fin w)); [|exact IH].
    exists w. auto.
  - unfold renderScene.
    now destruct (renderFragments random _ _ _ _) as [[fr lg] k'].
Qed.

Lemma initFragmentsSize_values w :
  let fs := initFragmentsSize (size (initCanvasSize w)) in
  FragmentSize.minSelfRadius fs = w * 9 / 16 / 150 /\
  FragmentSize.maxSelfRadius fs = w * 9 / 16 / 60 /\
  FragmentSize.minPositionRadius fs = w * 9 / 16 / 5 /\
  FragmentSize.maxPositionRadius fs = w / 2 - w * 9 / 16 / 5 /\
  FragmentSize.stepRadius fs = w / 2000.
Proof.
  pose proof (initCanvasSize_height w) as Hh.
  unfold initFragmentsSize, FRAGMENTS_SETTINGS.minRadius,
    FRAGMENTS_SETTINGS.maxRadius, FRAGMENTS_SETTINGS.stepRadius,
    RADIUS_LIMIT.min.
  cbv zeta.
  cbn [FragmentSize.minSelfRadius FragmentSize.maxSelfRadius
       FragmentSize.minPositionRadius FragmentSize.maxPositionRadius
       FragmentSize.stepRadius].
  rewrite Hh. unfold initCanvasSize. cbn [width size].
  repeat split; lra.
Qed.

Lemma spawn_facts (random : nat -> R)
    (random_range : forall k, 0 <= random k < 1) (w : R) (Hw : 0 <= w)
    (k : nat) :
  let h := w * 9 / 16 in
  let fs := initFragmentsSize (size (initCanvasSize w)) in
  let f := newFragment random fs k in
  let g := recycledFragment random fs k in
  (h / 150 <= selfRadius f <= h / 60 /\
   h / 5 <= positionRadius f <= w / 2 - h / 5 /\
   0 <= selfAngle f < 360 /\ 0 <= positionAngle f < 360 /\
   w / 2000 / 2 <= stepRadius f <= w / 2000 /\
   -1.5 <= stepAngle f < 1.5) /\
  (h / 150 <= selfRadius g <= h / 60 /\
   positionRadius g + selfRadius g = h / 5 /\
   0 <= positionRadius g /\
   0 <= selfAngle g < 360 /\ 0 <= positionAngle g < 360 /\
   w / 2000 / 2 <= stepRadius g <= w / 2000 /\
   -1.5 <= stepAngle g < 1.5).
Proof.
  intros h fs f g.
  destruct (initFragmentsSize_values w) as (V1 & V2 & V3 & V4 & V5).
  fold fs in V1, V2, V3, V4, V5.
  pose proof (random_range k). pose proof (random_range (k + 1)%nat).
  pose proof (random_range (k + 2)%nat). pose proof (random_range (k + 3)%nat).
  pose proof (random_range (k + 4)%nat). pose proof (random_range (k + 5)%nat).
  unfold f, g, newFragment, recycledFragment, FRAGMENTS_SETTINGS.stepAngle.
  cbn [selfRadius selfAngle positionRadius positionAngle stepRadius stepAngle].
  rewrite V1, V2, V3, V4, V5. unfold h.
  repeat split; nra.
Qed.

(** X13: what a freshly built fragment looks like, on the sizing of a
    container of width [w >= 0] and with [Math.random] in [0,1).  A
    fragment of [initFragments] has its size between 1/150 and 1/60 of
    the canvas height, its distance from the centre between the inner
    ring (1/5 of the height) and half the width minus that ring, both
    angles in [0,360), a drift between half and all of [w/2000] and a
    spin in [-1.5, 1.5).  A recycled fragment has the same size, drift
    and spin ranges and starts inside the inner ring, its outer extent
    exactly on the ring. *)
Theorem spawn_ranges (random : nat -> R)
    (random_range : forall k, 0 <= random k < 1) (w : R) (Hw : 0 <= w)
    (k : nat) :
  let h := w * 9 / 16 in
  let fs := initFragmentsSize (size (initCanvasSize w)) in
  let f := newFragment random fs k in
  let g := recycledFragment random fs k in
  (h / 150 <= selfRadius f <= h / 60 /\
   h / 5 <= positionRadius f <= w / 2 - h / 5 /\
   0 <= selfAngle f < 360 /\ 0 <= positionAngle f < 360 /\
   w / 2000 / 2 <= stepRadius f <= w / 2000 /\
   -1.5 <= stepAngle f < 1.5) /\
  (h / 150 <= selfRadius g <= h / 60 /\
   positionRadius g + selfRadius g = h / 5 /\
   0 <= positionRadius g /\
   0 <= selfAngle g < 360 /\ 0 <= positionAngle g < 360 /\
   w / 2000 / 2 <= stepRadius g <= w / 2000 /\
   -1.5 <= stepAngle g < 1.5).
Proof. exact (spawn_facts random random_range w Hw k). Qed.

Lemma spawn_ranges_witness :
  (forall k, 0 <= zeroRandom k < 1) /\ 0 <= 1600 /\
  (1600 * 9 / 16 / 150
   <= selfRadius (newFragment zeroRandom
                    (initFragmentsSize (size (initCanvasSize 1600))) 0)
   <= 1600 * 9 / 16 / 60).
Proof.
  assert (H : 0 <= 1600) by lra.
  split; [exact zeroRandom_range|]. split; [exact H|].
  exact (proj1 (proj1 (spawn_ranges zeroRandom zeroRandom_range 1600 H 0))).
Defined.

Lemma recycled_on_canvas random w k :
  (forall j, 0 <= random j < 1) -> 0 <= w ->
  fst (drawFragment (size (initCanvasSize w))
         (recycledFragment random
            (initFragmentsSize (size (initCanvasSize w))) k)) = true.
Proof.
  intros Hrnd Hw.
  destruct (spawn_facts random Hrnd w Hw k) as [_ (S1 & S2 & S3 & _)].
  cbv zeta in S1, S2, S3.
  set (g := recycledFragment random
              (initFragmentsSize (size (initCanvasSize w))) k) in *.
  pose proof (initCanvasSize_height w) as Hh.
  assert (Wc : width (size (initCanvasSize w)) = w) by reflexivity.
  unfold drawFragment. cbv zeta.
  unfold convertPolarToCartesian_centre.
  destruct (project_in_square (positionRadius g) (positionAngle g)
              (width (size (initCanvasSize w)) / 2)
              (height (size (initCanvasSize w)) / 2) S3) as [Bx By].
  rewrite Hh, Wc in *.
  repeat match goal with
    | |- context [Rltb ?a ?b] =>
        let E := fresh "E" in
        destruct (Rltb a b) eqn:E; [apply Rltb_true in E; lra|]
    end.
  reflexivity.
Qed.

Lemma renderScene_parts random s :
  fst (renderScene random s)
    = mkScene (sceneCanvas s) (fragmentSize s)
        (fst (fst (renderFragments random (sceneCanvas s) (fragmentSize s)
                     (fragmentsArray s) (randomCalls s))))
        (angleOffset s)
        (snd (renderFragments random (sceneCanvas s) (fragmentSize s)
                (fragmentsArray s) (randomCalls s))) /\
  snd (renderScene random s)
    = snd (fst (renderFragments random (sceneCanvas s) (fragmentSize s)
                  (fragmentsArray s) (randomCalls s))).
Proof.
  unfold renderScene.
  now destruct (renderFragments random _ _ _ _) as [[fr lg] k'].
Qed.

(** X14: every fragment pass of [render] on a reachable scene fills the
    canvas again: a replacement is always on the canvas, so after the
    pass every fragment in the array is on the canvas, the pass has
    drawn exactly one triangle per slot, 256 in all, and a second pass
    right after it replaces nothing and makes no random call. *)
Theorem render_pass_fills_canvas (random : nat -> R)
    (random_range : forall k, 0 <= random k < 1)
    (s : scene) (Hs : scene_reachable random s) :
  Forall (fun f => fst (drawFragment (sceneCanvas s) f) = true)
    (fragmentsArray (fst (renderScene random s))) /\
  List.length (snd (renderScene random s)) = FRAGMENTS_SETTINGS.count /\
  (forall k,
     fst (drawFragment (sceneCanvas s)
            (recycledFragment random (fragmentSize s) k)) = true) /\
  fst (renderScene random (fst (renderScene random s)))
    = fst (renderScene random s).
Proof.
  destruct (reachable_invariant random random_range s Hs) as (_ & _ & Ifs & _).
  destruct (reachable_canvas random s Hs) as (w & Hw & Ec).
  pose proof (reachable_count random s Hs) as Hc.
  assert (HR : forall k,
     fst (drawFragment (sceneCanvas s)
            (recycledFragment random (fragmentSize s) k)) = true).
  { intros k. rewrite Ifs, Ec. now apply recycled_on_canvas. }
  pose proof (renderFragments_on_canvas random (sceneCanvas s) (fragmentSize s)
                (fragmentsArray s) (randomCalls s) HR) as On.
  destruct (renderFragments_slots random (sceneCanvas s) (fragmentSize s)
              (fragmentsArray s) (randomCalls s)) as (Lg & Len & _).
  destruct (renderScene_parts random s) as [E1 E2].
  split; [|split; [|split; [exact HR|]]].
  - rewrite E1. exact On.
  - rewrite E2, Lg, flat_map_one; [congruence|].
    eapply Forall_impl; [|exact On]. intros f. apply drawFragment_one.
  - rewrite (proj1 (renderScene_parts random (fst (renderScene random s)))).
    rewrite E1.
    cbn [sceneCanvas fragmentSize fragmentsArray randomCalls angleOffset].
    now rewrite (renderFragments_fixed random _ _ _ _ On).
Qed.

Lemma render_pass_fills_canvas_witness :
  (forall k, 0 <= zeroRandom k < 1) /\
  scene_reachable zeroRandom shrunkScene /\
  List.length (snd (renderScene zeroRandom shrunkScene))
    = FRAGMENTS_SETTINGS.count.
Proof.
  split; [exact zeroRandom_range|]. split; [exact shrunkScene_reachable|].
  exact (proj1 (proj2 (render_pass_fills_canvas zeroRandom zeroRandom_range
                         shrunkScene shrunkScene_reachable))).
Defined.

(** X16: the derived sizes are never stale.  In every reachable scene
    the canvas is 9/16 as high as it is wide, the fragment sizing is the
    one computed from that canvas, the array holds exactly 256
    fragments, and no fragment has a negative size or drift. *)
Theorem scene_sizes_consistent (random : nat -> R)
    (random_range : forall k, 0 <= random k < 1)
    (s : scene) (Hs : scene_reachable random s) :
  0 <= width (sceneCanvas s) /\
  height (sceneCanvas s) = width (sceneCanvas s) * 9 / 16 /\
  fragmentSize s = initFragmentsSize (sceneCanvas s) /\
  List.length (fragmentsArray s) = 256%nat /\
  Forall (fun f => 0 <= selfRadius f /\ 0 <= stepRadius f) (fragmentsArray s).
Proof.
  destruct (reachable_invariant random random_range s Hs) as (Iw & _ & Ifs & IF).
  destruct (reachable_canvas random s Hs) as (w & Hw & Ec).
  split; [exact Iw|]. split; [|split; [exact Ifs|split]].
  - rewrite Ec, initCanvasSize_height. reflexivity.
  - exact (reachable_count random s Hs).
  - eapply Forall_impl; [|exact IF]. intros f [A B]. auto.
Qed.

Lemma scene_sizes_consistent_witness :
  (forall k, 0 <= zeroRandom k < 1) /\
  scene_reachable zeroRandom shrunkScene /\
  fragmentSize shrunkScene = initFragmentsSize (sceneCanvas shrunkScene).
Proof.
  split; [exact zeroRandom_range|]. split; [exact shrunkScene_reachable|].
  exact (proj1 (proj2 (proj2 (scene_sizes_consistent zeroRandom
           zeroRandom_range shrunkScene shrunkScene_reachable)))).
Defined.

(** ** The stepper callback *)

Lemma iter_stepFragment_angles k f :
  selfAngle (Nat.iter k stepFragment f) = selfAngle f + INR k * stepAngle f /\
  stepAngle (Nat.iter k stepFragment f) = stepAngle f /\
  positionAngle (Nat.iter k stepFragment f) = positionAngle f.
Proof.
  induction k as [|k (IH1 & IH2 & IH3)].
  - simpl. repeat split; lra.
  - rewrite S_INR. simpl Nat.iter.
    set (g := Nat.iter k stepFragment f) in *.
    unfold stepFragment. cbn [selfAngle stepAngle positionAngle].
    rewrite IH1, IH2, IH3. repeat split; lra.
Qed.

Lemma iter_tick_fields n s :
  angleOffset (Nat.iter n tick s) = angleOffset s + INR n * ANGLE_STEP /\
  sceneCanvas (Nat.iter n tick s) = sceneCanvas s /\
  fragmentSize (Nat.iter n tick s) = fragmentSize s /\
  randomCalls (Nat.iter n tick s) = randomCalls s.
Proof.
  induction n as [|n (I1 & I2 & I3 & I4)].
  - simpl. repeat split; lra.
  - rewrite S_INR. simpl Nat.iter.
    set (t := Nat.iter n tick s) in *. unfold tick.
    cbn [angleOffset sceneCanvas fragmentSize randomCalls].
    rewrite I1. repeat split; auto; lra.
Qed.

(** X15: what the 20 ms callback leaves alone.  After any number of
    runs every fragment still has its direction from the centre, its
    size, its drift and its spin; the callback makes no random call and
    does not touch the canvas or the sizing; the array keeps its slots.
    The rotation of the spectrum never decreases, and a fragment's own
    rotation moves only in the direction of its spin. *)
Theorem ticks_keep_shape (s : scene) (n : nat) :
  sceneCanvas (Nat.iter n tick s) = sceneCanvas s /\
  fragmentSize (Nat.iter n tick s) = fragmentSize s /\
  randomCalls (Nat.iter n tick s) = randomCalls s /\
  angleOffset s <= angleOffset (Nat.iter n tick s) /\
  Forall2
    (fun f f' =>
       positionAngle f' = positionAngle f /\
       selfRadius f' = selfRadius f /\
       stepRadius f' = stepRadius f /\
       stepAngle f' = stepAngle f /\
       (0 <= stepAngle f -> selfAngle f <= selfAngle f') /\
       (stepAngle f <= 0 -> selfAngle f' <= selfAngle f))
    (fragmentsArray s) (fragmentsArray (Nat.iter n tick s)).
Proof.
  destruct (iter_tick_fields n s) as (I1 & I2 & I3 & I4).
  pose proof (pos_INR n) as Hn.
  split; [exact I2|]. split; [exact I3|]. split; [exact I4|].
  split; [rewrite I1; unfold ANGLE_STEP; nra|].
  rewrite iter_tick_fragments.
  rewrite <- (map_id (fragmentsArray s)) at 1.
  apply Forall2_map_same. rewrite Forall_forall. intros f _.
  destruct (iter_stepFragment n f) as (P1 & P2 & P3).
  destruct (iter_stepFragment_angles n f) as (A1 & A2 & A3).
  rewrite A1, A2, A3, P2, P3.
  repeat split; intros; nra.
Qed.

Lemma initFragmentsLoop_nth random c fs n k i :
  (i < n)%nat ->
  nth_error (fst (fst (initFragmentsLoop random c fs n k))) i
    = Some (newFragment random fs (k + 6 * i)) /\
  snd (initFragmentsLoop random c fs n k) = (k + 6 * n)%nat.
Proof.
  revert k i. induction n as [|n IH]; intros k i Hi; [lia|].
  assert (S : snd (initFragmentsLoop random c fs (S n) k) = (k + 6 * S n)%nat).
  { clear IH Hi. revert k. induction n as [|n IHn]; intros k.
    - simpl. lia.
    - specialize (IHn (k + 6)%nat). simpl in *.
      destruct (initFragmentsLoop random c fs n (k + 6 + 6)) as [[fr lg] k'].
      simpl in *. lia. }
  split; [|exact S].
  rewrite initFragmentsLoop_head. destruct i as [|i]; simpl.
  - f_equal. f_equal. lia.
  - destruct (IH (k + 6)%nat i ltac:(lia)) as [-> _]. f_equal. f_equal. lia.
Qed.

(** X26: [initFragments] fills all 256 slots, builds the fragment of
    slot [i] from the six calls of [Math.random] numbered [6 i] to
    [6 i + 5], and so makes exactly 1536 calls. *)
Theorem initFragments_slots (random : nat -> R) (w : R) (i : nat)
    (Hi : (i < 256)%nat) :
  nth_error (fragmentsArray (initScene random w)) i
    = Some (newFragment random (initFragmentsSize (size (initCanvasSize w)))
              (6 * i)) /\
  List.length (fragmentsArray (initScene random w)) = 256%nat /\
  randomCalls (initScene random w) = 1536%nat /\
  angleOffset (initScene random w) = 0.
Proof.
  pose proof (initFragmentsLoop_nth random (size (initCanvasSize w))
                (initFragmentsSize (size (initCanvasSize w)))
                FRAGMENTS_SETTINGS.count 0 i Hi) as [N K].
  pose proof (initFragmentsLoop_Forall random (fun _ => True)
                (size (initCanvasSize w))
                (initFragmentsSize (size (initCanvasSize w)))
                FRAGMENTS_SETTINGS.count 0 (fun _ => I)) as [_ L].
  rewrite initScene_fragments. split; [exact N|]. split; [exact L|].
  unfold initScene. cbv zeta.
  destruct (initFragmentsLoop random _ _ _ _) as [[fr lg] k'].
  simpl in *. split; [exact K | reflexivity].
Qed.

Lemma initFragments_slots_witness :
  (7 < 256)%nat /\
  nth_error (fragmentsArray (initScene zeroRandom 1600)) 7
    = Some (newFragment zeroRandom
              (initFragmentsSize (size (initCanvasSize 1600))) (6 * 7)).
Proof.
  assert (H : (7 < 256)%nat) by lia.
  split; [exact H|].
  exact (proj1 (initFragments_slots zeroRandom 1600 7 H)).
Defined.

(** ** Spectrum strokes *)




(** ** Palette roles *)

(** X27: whenever the extractor returns at least one colour,
    [getCoverColor] completes: the background is the first colour
    re-synthesised at lightness 0.3, the spectrum the second colour at
    lightness 0.85 and the fragments the third colour at lightness 0.85
    and opacity 0.4, a missing second or third colour being replaced by
    the first.  Only hue and saturation of a colour are kept: two
    colours with the same hue and saturation give the same role colour.
    The stroke style and the wrapper background follow, and a redraw is
    requested exactly when no redraw chain is running.  On an empty
    palette it throws and leaves everything as it was. *)
Theorem palette_roles
    (rgbToHsl : R -> R -> R -> R * R * R) (hslToRgb : R -> R -> R -> rgb)
    (old : coverResult) :
  (forall r g b isDarken,
     changeColor rgbToHsl hslToRgb (r, g, b) isDarken
       = hslToRgb (fst (fst (rgbToHsl r g b))) (snd (fst (rgbToHsl r g b)))
           (if isDarken then 0.3 else 0.85)) /\
  (forall r g b r' g' b' isDarken,
     fst (rgbToHsl r g b) = fst (rgbToHsl r' g' b') ->
     changeColor rgbToHsl hslToRgb (r, g, b) isDarken
       = changeColor rgbToHsl hslToRgb (r', g', b') isDarken) /\
  (forall a l,
     getCoverColor rgbToHsl hslToRgb (a :: l) old =
       Done (mkCoverResult
               (mkColors
                  (RgbColor (changeColor rgbToHsl hslToRgb a true))
                  (RgbColor (changeColor rgbToHsl hslToRgb (nth 0 l a) false))
                  (RgbaColor (changeColor rgbToHsl hslToRgb (nth 1 l a) false)
                     0.4))
               (RgbColor (changeColor rgbToHsl hslToRgb (nth 0 l a) false))
               (RgbColor (changeColor rgbToHsl hslToRgb a true))
               (Scheduler.flushCanvas (coverSched old)))) /\
  getCoverColor rgbToHsl hslToRgb [] old = Threw TypeError old /\
  (Scheduler.flushEventId (coverSched old) = 0%N ->
   List.length (Scheduler.frames (Scheduler.flushCanvas (coverSched old)))
     = S (List.length (Scheduler.frames (coverSched old)))) /\
  (Scheduler.flushEventId (coverSched old) <> 0%N ->
   Scheduler.flushCanvas (coverSched old) = coverSched old).
Proof.
  assert (C : forall r g b isDarken,
     changeColor rgbToHsl hslToRgb (r, g, b) isDarken
       = hslToRgb (fst (fst (rgbToHsl r g b))) (snd (fst (rgbToHsl r g b)))
           (if isDarken then 0.3 else 0.85)).
  { intros r g b d. unfold changeColor.
    now destruct (rgbToHsl r g b) as [[h sa] li]. }
  split; [exact C|]. split; [|split; [|split; [reflexivity | split]]].
  - intros r g b r' g' b' d E. now rewrite !C, E.
  - intros a [|b [|c l]]; reflexivity.
  - intros H. unfold Scheduler.flushCanvas. rewrite H. simpl.
    rewrite length_app. simpl. lia.
  - intros H. unfold Scheduler.flushCanvas.
    apply N.eqb_neq in H. now rewrite H.
Qed.
